(** * LOOT API: the database facade (src/api/api_database.cpp)

    A shallow embedding of [ApiDatabase] and of the collaborators it calls.
    The member functions of [ApiDatabase] are translated from
    api_database.cpp; the metadata value types, [MetadataList], the
    condition evaluator and the sorter are modelled from the specification,
    each such definition saying so. *)

From Stdlib Require Import String Ascii NArith ZArith List Bool Lia.
From stdpp Require Import base option list gmap strings fin_maps sorting.

Local Open Scope string_scope.
Local Open Scope list_scope.

(** ** Errors

    The exceptions that cross the facade.  [InvalidArgument] is
    [std::invalid_argument]; the others are the library's own classes. *)

Inductive ErrorKind : Type :=
| FileAccessError
| ConditionSyntaxError
| CyclicInteractionError
| GitStateError
| InvalidArgument
| UndefinedGroup.

Global Instance ErrorKind_eq_dec : EqDecision ErrorKind.
Proof. solve_decision. Defined.

(** What a call does: it returns a value or throws. *)
Inductive Outcome (A : Type) : Type :=
| Returned (a : A)
| Thrown (e : ErrorKind).

Arguments Returned {A} a.
Arguments Thrown {A} e.

Global Instance Outcome_eq_dec {A} `{EqDecision A} : EqDecision (Outcome A).
Proof. solve_decision. Defined.

Definition outcome_bind {A B} (x : Outcome A) (k : A -> Outcome B) : Outcome B :=
  match x with
  | Returned a => k a
  | Thrown e => Thrown e
  end.

(** ** Metadata values *)

(** Modelled from the spec: case-insensitive comparison of file names
    (helpers absent from the sources).  Only the letters A-Z are folded. *)
Definition lower_ascii (c : ascii) : ascii :=
  let n := N_of_ascii c in
  if ((65 <=? n) && (n <=? 90))%N then ascii_of_N (n + 32) else c.

Fixpoint to_lower (s : string) : string :=
  match s with
  | EmptyString => EmptyString
  | String c r => String (lower_ascii c) (to_lower r)
  end.

(** Modelled from the spec: the metadata value types of section 3 (the
    headers and sources of loot/metadata are absent).  A condition is an
    optional condition string. *)
Record File : Type := {
  file_name : string;
  file_display : option string;
  file_condition : option string
}.

Record Tag : Type := {
  tag_name : string;
  tag_is_addition : bool;
  tag_condition : option string
}.

Record MessageContent : Type := {
  content_language : string;
  content_text : string
}.

Inductive MessageType : Type := say | warn | error.

Record Message : Type := {
  message_type : MessageType;
  message_content : list MessageContent;
  message_condition : option string
}.

Record PluginCleaningData : Type := {
  cleaning_crc : N;
  cleaning_utility : string;
  cleaning_itm : N;
  cleaning_deleted_references : N;
  cleaning_deleted_navmeshes : N;
  cleaning_info : list MessageContent
}.

(** Modelled from the spec: a priority (priority.cpp is absent), a signed
    value in one of three states, unset, default-set and user-set. *)
Inductive Priority : Type :=
| PriorityUnset
| PriorityDefault (value : Z)
| PriorityUser (value : Z).

Global Instance File_eq_dec : EqDecision File.
Proof. solve_decision. Defined.
Global Instance Tag_eq_dec : EqDecision Tag.
Proof. solve_decision. Defined.
Global Instance MessageContent_eq_dec : EqDecision MessageContent.
Proof. solve_decision. Defined.
Global Instance MessageType_eq_dec : EqDecision MessageType.
Proof. solve_decision. Defined.
Global Instance Message_eq_dec : EqDecision Message.
Proof. solve_decision. Defined.
Global Instance PluginCleaningData_eq_dec : EqDecision PluginCleaningData.
Proof. solve_decision. Defined.
Global Instance Priority_eq_dec : EqDecision Priority.
Proof. solve_decision. Defined.

(** Modelled from the spec: the keys of section 4.2.  File references are
    equal when name and display name agree up to case, tags when name and
    add/remove flag agree, cleaning data when the CRCs agree. *)
Definition file_key (f : File) : string * option string :=
  (to_lower (file_name f), to_lower <$> file_display f).

Definition tag_key (t : Tag) : string * bool :=
  (tag_name t, tag_is_addition t).

(** Modelled from the spec: plugin metadata (plugin_metadata.cpp is absent).
    A set of values compared by key is the finite map from the key to the
    value held for it.  The scalars carry their own unset state. *)
Record PluginMetadata : Type := {
  name : string;
  group : option string;
  enabled : option bool;
  priority : Priority;
  global_priority : Priority;
  load_after : gmap (string * option string) File;
  requirements : gmap (string * option string) File;
  incompatibilities : gmap (string * option string) File;
  messages : list Message;
  tags : gmap (string * bool) Tag;
  dirty_info : gmap N PluginCleaningData;
  locations : gset string
}.

Global Instance PluginMetadata_eq_dec : EqDecision PluginMetadata.
Proof. solve_decision. Defined.

(** Modelled from the spec: [PluginMetadata(name)], the constructor that
    [WriteMinimalList] calls, an entry that carries a name and nothing
    else. *)
Definition newPluginMetadata (n : string) : PluginMetadata :=
  {| name := n; group := None; enabled := None;
     priority := PriorityUnset; global_priority := PriorityUnset;
     load_after := ∅; requirements := ∅; incompatibilities := ∅;
     messages := []; tags := ∅; dirty_info := ∅; locations := ∅ |}.

(** Modelled from the spec: the accessors of [PluginMetadata] that
    [WriteMinimalList] calls. *)
Definition GetName (p : PluginMetadata) : string := name p.
Definition GetTags (p : PluginMetadata) : gmap (string * bool) Tag := tags p.
Definition GetDirtyInfo (p : PluginMetadata) : gmap N PluginCleaningData :=
  dirty_info p.

Definition SetTags (t : gmap (string * bool) Tag) (p : PluginMetadata) :
  PluginMetadata :=
  {| name := name p; group := group p; enabled := enabled p;
     priority := priority p; global_priority := global_priority p;
     load_after := load_after p; requirements := requirements p;
     incompatibilities := incompatibilities p; messages := messages p;
     tags := t; dirty_info := dirty_info p; locations := locations p |}.

Definition SetDirtyInfo (d : gmap N PluginCleaningData) (p : PluginMetadata) :
  PluginMetadata :=
  {| name := name p; group := group p; enabled := enabled p;
     priority := priority p; global_priority := global_priority p;
     load_after := load_after p; requirements := requirements p;
     incompatibilities := incompatibilities p; messages := messages p;
     tags := tags p; dirty_info := d; locations := locations p |}.

(** Modelled from the spec: the merge of a scalar (section 4.2), [other]
    winning when it has a value set. *)
Definition merge_priority (self other : Priority) : Priority :=
  match other with
  | PriorityUnset => self
  | _ => other
  end.

Definition merge_scalar {A} (self other : option A) : option A :=
  match other with
  | Some v => Some v
  | None => self
  end.

(** Modelled from the spec: [PluginMetadata::MergeMetadata] (section 4.2;
    plugin_metadata.cpp is absent).  Scalars are taken from [other] when
    it has them set; sets are united by key, an element already held
    staying; messages are concatenated, self first.  The name is the one
    of self. *)
Definition MergeMetadata (self other : PluginMetadata) : PluginMetadata :=
  {| name := name self;
     group := merge_scalar (group self) (group other);
     enabled := merge_scalar (enabled self) (enabled other);
     priority := merge_priority (priority self) (priority other);
     global_priority :=
       merge_priority (global_priority self) (global_priority other);
     load_after := load_after self ∪ load_after other;
     requirements := requirements self ∪ requirements other;
     incompatibilities := incompatibilities self ∪ incompatibilities other;
     messages := messages self ++ messages other;
     tags := tags self ∪ tags other;
     dirty_info := dirty_info self ∪ dirty_info other;
     locations := locations self ∪ locations other |}.

(** ** Metadata lists *)

(** Modelled from the spec: a metadata list (metadata_list.cpp is absent) is
    a mapping from normalised plugin name to plugin metadata, a list of
    global messages and a set of known tag names. *)
Record MetadataList : Type := {
  plugins_ : gmap string PluginMetadata;
  messages_ : list Message;
  bashTags_ : gset string
}.

Global Instance MetadataList_eq_dec : EqDecision MetadataList.
Proof. solve_decision. Defined.

(** [class Masterlist : public MetadataList].  The revision data is read
    from the repository on request ([GetMasterlistRevision] takes the path)
    and is not part of the stored list. *)
Definition Masterlist : Type := MetadataList.

(** A default-constructed list. *)
Definition newMetadataList : MetadataList :=
  {| plugins_ := ∅; messages_ := []; bashTags_ := ∅ |}.

Definition set_plugins (m : gmap string PluginMetadata) (l : MetadataList) :
  MetadataList :=
  {| plugins_ := m; messages_ := messages_ l; bashTags_ := bashTags_ l |}.

Definition plugin_key (p : PluginMetadata) : string := to_lower (name p).

(** The map is keyed by the normalised name of the entry it holds. *)
Definition keyed (l : MetadataList) : Prop :=
  ∀ k p, plugins_ l !! k = Some p → k = plugin_key p.

(** Modelled from the spec: the accessors of [MetadataList] that the
    facade calls. *)
Definition Messages (l : MetadataList) : list Message := messages_ l.
Definition BashTags (l : MetadataList) : gset string := bashTags_ l.
Definition Plugins (l : MetadataList) : list PluginMetadata :=
  (map_to_list (plugins_ l)).*2.

Definition Clear (l : MetadataList) : MetadataList := newMetadataList.

(** Modelled from the spec: [MetadataList::FindPlugin], the entry held for
    the name, and an entry with nothing but the name when there is none. *)
Definition FindPlugin (l : MetadataList) (n : string) : PluginMetadata :=
  default (newPluginMetadata n) (plugins_ l !! to_lower n).

(** Modelled from the spec: [MetadataList::ErasePlugin], which leaves no
    entry for the name. *)
Definition ErasePlugin (p : PluginMetadata) (l : MetadataList) : MetadataList :=
  set_plugins (delete (plugin_key p) (plugins_ l)) l.

Section AddPlugin.

(** What [AddPlugin] does with an entry whose name the list already holds
    is not fixed by the specification: [on_clash held given] is the entry
    kept for the name, or the exception thrown. *)
Variable on_clash : PluginMetadata -> PluginMetadata -> Outcome PluginMetadata.

(** Modelled from the spec: [MetadataList::AddPlugin], which holds the
    entry under its normalised name. *)
Definition AddPlugin (p : PluginMetadata) (l : MetadataList) :
  Outcome MetadataList :=
  match plugins_ l !! plugin_key p with
  | None => Returned (set_plugins (<[plugin_key p := p]> (plugins_ l)) l)
  | Some held =>
      outcome_bind (on_clash held p)
        (fun kept => Returned (set_plugins (<[plugin_key p := kept]> (plugins_ l)) l))
  end.

End AddPlugin.

(** ** The file system *)

(** Modelled from the spec: the textual document format and its parser are
    out of scope; a document on disk is what parsing it yields, a metadata
    list or the error the parser raises. *)
Inductive Document : Type :=
| WellFormed (l : MetadataList)
| Malformed (e : ErrorKind).

Inductive Node : Type :=
| Directory
| RegularFile (d : Document).

Global Instance Document_eq_dec : EqDecision Document.
Proof. solve_decision. Defined.
Global Instance Node_eq_dec : EqDecision Node.
Proof. solve_decision. Defined.

(** [boost::filesystem::exists] and [boost::filesystem::is_directory]:
    something, a directory, is at the path. *)
Definition exists_ (fs : gmap string Node) (p : string) : bool :=
  bool_decide (is_Some (fs !! p)).

Definition is_directory (fs : gmap string Node) (p : string) : bool :=
  bool_decide (fs !! p = Some Directory).

(** Modelled from the spec: [MetadataList::Load].  A path that cannot be
    read as a file is a [FileAccessError]; a document that does not parse
    raises the parser's error. *)
Definition Load (fs : gmap string Node) (path : string) : Outcome MetadataList :=
  match fs !! path with
  | Some (RegularFile (WellFormed l)) => Returned l
  | Some (RegularFile (Malformed e)) => Thrown e
  | Some Directory => Thrown FileAccessError
  | None => Thrown FileAccessError
  end.

(** ** The database and its environment *)

(** Modelled from the spec: the condition results of the game cache
    (section 4.6; game_cache.cpp is absent), a map from condition text to
    its value. *)
Record GameCache : Type := {
  conditions_ : gmap string bool
}.

(** The members of [ApiDatabase] ([masterlist_], [userlist_], the cache
    that [gameCache_] points to) and the file system its calls act on. *)
Record State : Type := {
  masterlist_ : Masterlist;
  userlist_ : MetadataList;
  gameCache_ : GameCache;
  disk : gmap string Node
}.

Definition set_masterlist (m : Masterlist) (st : State) : State :=
  {| masterlist_ := m; userlist_ := userlist_ st;
     gameCache_ := gameCache_ st; disk := disk st |}.

Definition set_userlist (u : MetadataList) (st : State) : State :=
  {| masterlist_ := masterlist_ st; userlist_ := u;
     gameCache_ := gameCache_ st; disk := disk st |}.

Definition set_gameCache (c : GameCache) (st : State) : State :=
  {| masterlist_ := masterlist_ st; userlist_ := userlist_ st;
     gameCache_ := c; disk := disk st |}.

Definition set_disk (fs : gmap string Node) (st : State) : State :=
  {| masterlist_ := masterlist_ st; userlist_ := userlist_ st;
     gameCache_ := gameCache_ st; disk := fs |}.

(** A member function: it runs on a state, returns or throws, and leaves a
    state.  A throw keeps the changes made before it. *)
Definition M (A : Type) : Type := State -> Outcome A * State.

Global Instance M_ret : MRet M := fun A a st => (Returned a, st).

Global Instance M_bind : MBind M := fun A B k m st =>
  match m st with
  | (Returned a, st') => k a st'
  | (Thrown e, st') => (Thrown e, st')
  end.

Definition throw {A} (e : ErrorKind) : M A := fun st => (Thrown e, st).
Definition gets {A} (f : State -> A) : M A := fun st => (Returned (f st), st).
Definition modify (f : State -> State) : M unit := fun st => (Returned tt, f st).
Definition lift {A} (x : Outcome A) : M A := fun st => (x, st).

(** ** Database loading functions *)

(** [ApiDatabase::LoadLists]: both lists are read into temporaries, then
    both members are assigned. *)
Definition LoadLists (masterlistPath userlistPath : string) : M unit :=
  let temp : Masterlist := newMetadataList in
  let userTemp : MetadataList := newMetadataList in
  temp ← (if bool_decide (masterlistPath = "") then mret temp
          else
            fs ← gets disk;
            if exists_ fs masterlistPath then lift (Load fs masterlistPath)
            else throw FileAccessError);
  userTemp ← (if bool_decide (userlistPath = "") then mret userTemp
              else
                fs ← gets disk;
                if exists_ fs userlistPath then lift (Load fs userlistPath)
                else throw FileAccessError);
  modify (fun st => set_userlist userTemp (set_masterlist temp st)).

Section Facade.

(** [boost::filesystem::path(p).parent_path()], a function of the path
    text alone. *)
Variable parent_path : string -> string.

(** See [AddPlugin]. *)
Variable on_clash : PluginMetadata -> PluginMetadata -> Outcome PluginMetadata.

(** The condition parser and evaluator of section 4.1, without its cache:
    the value of a condition string against the game's files, or the
    [ConditionSyntaxError] or [FileAccessError] it raises. *)
Variable resolve : gmap string Node -> string -> Outcome bool.

(** [ConditionEvaluator::evaluateAll], the copy of an entry with its
    conditions resolved. *)
Variable evaluateAll : PluginMetadata -> M PluginMetadata.

(** [Masterlist::Update] on a fresh masterlist object, the client of the
    version control system: whether the file changed or the error raised,
    the content of the masterlist object afterwards, and the file system
    afterwards. *)
Variable Update :
  string -> string -> string -> gmap string Node ->
  Outcome bool * Masterlist * gmap string Node.

(** Modelled from the spec: a file can be written at a path whose parent
    is a directory and which is not a directory itself. *)
Definition writable (fs : gmap string Node) (path : string) : bool :=
  is_directory fs (parent_path path) && negb (is_directory fs path).

(** Modelled from the spec: [MetadataList::Save].  A path that cannot be
    written is a [FileAccessError] (section 7) and leaves the files as they
    are; otherwise the file at the path holds the list, as it is. *)
Definition Save (l : MetadataList) (path : string) (fs : gmap string Node) :
  Outcome unit * gmap string Node :=
  if writable fs path
  then (Returned tt, <[path := RegularFile (WellFormed l)]> fs)
  else (Thrown FileAccessError, fs).

(** [list.Save(path)] as a step of a member function. *)
Definition save (l : MetadataList) (path : string) : M unit := fun st =>
  let (r, fs) := Save l path (disk st) in (r, set_disk fs st).

(** [ApiDatabase::WriteUserMetadata]. *)
Definition WriteUserMetadata (outputFile : string) (overwrite : bool) : M unit :=
  fs ← gets disk;
  if negb (exists_ fs (parent_path outputFile)) then throw InvalidArgument
  else if exists_ fs outputFile && negb overwrite then throw FileAccessError
  else
    userlist ← gets userlist_;
    save userlist outputFile.

(** ** LOOT functionality functions *)

(** [ApiDatabase::UpdateMasterlist]: the member is assigned when the
    update of the local masterlist object returns true. *)
Definition UpdateMasterlist (masterlistPath remoteURL remoteBranch : string) :
  M bool :=
  fs ← gets disk;
  if negb (is_directory fs (parent_path masterlistPath))
  then throw InvalidArgument
  else fun st =>
    let '(changed, masterlist, fs') :=
      Update masterlistPath remoteURL remoteBranch (disk st) in
    match changed with
    | Returned true => (Returned true, set_masterlist masterlist (set_disk fs' st))
    | Returned false => (Returned false, set_disk fs' st)
    | Thrown e => (Thrown e, set_disk fs' st)
    end.

(** ** Database access functions *)

(** [ApiDatabase::GetKnownBashTags]. *)
Definition GetKnownBashTags : M (gset string) :=
  masterlistTags ← gets (fun st => BashTags (masterlist_ st));
  userlistTags ← gets (fun st => BashTags (userlist_ st));
  mret (if bool_decide (userlistTags = ∅) then masterlistTags
        else masterlistTags ∪ userlistTags).

(** Modelled from the spec: [GameCache::ClearCachedConditions]. *)
Definition ClearCachedConditions : M unit :=
  modify (set_gameCache {| conditions_ := ∅ |}).

(** Modelled from the spec: [Message::GetCondition]. *)
Definition GetCondition (m : Message) : option string := message_condition m.

(** Modelled from the spec: [ConditionEvaluator::evaluate] (sections 3,
    4.1 and 4.6; condition_evaluator.cpp is absent).  An absent condition
    holds; a condition string seen since the cache was last cleared has
    its cached value; any other is resolved and its value cached. *)
Definition evaluate (condition : option string) : M bool :=
  match condition with
  | None => mret true
  | Some c => fun st =>
      match conditions_ (gameCache_ st) !! c with
      | Some b => (Returned b, st)
      | None =>
          match resolve (disk st) c with
          | Returned b =>
              (Returned b,
               set_gameCache
                 {| conditions_ := <[c := b]> (conditions_ (gameCache_ st)) |} st)
          | Thrown e => (Thrown e, st)
          end
      end
  end.

(** The loop of [GetGeneralMessages]: a message whose condition does not
    hold is erased, the others stay in order. *)
Fixpoint erase_hidden (msgs : list Message) : M (list Message) :=
  match msgs with
  | [] => mret []
  | m :: rest =>
      holds ← evaluate (GetCondition m);
      rest' ← erase_hidden rest;
      mret (if holds : bool then m :: rest' else rest')
  end.

(** [ApiDatabase::GetGeneralMessages]. *)
Definition GetGeneralMessages (evaluateConditions : bool) : M (list Message) :=
  masterlistMessages ← gets (fun st => Messages (masterlist_ st));
  userlistMessages ← gets (fun st => Messages (userlist_ st));
  let masterlistMessages :=
    if bool_decide (userlistMessages = []) then masterlistMessages
    else masterlistMessages ++ userlistMessages in
  if evaluateConditions then
    ClearCachedConditions;;
    erase_hidden masterlistMessages
  else mret masterlistMessages.

(** [ApiDatabase::GetPluginMetadata]. *)
Definition GetPluginMetadata (plugin : string)
    (includeUserMetadata evaluateConditions : bool) : M PluginMetadata :=
  metadata ← gets (fun st => FindPlugin (masterlist_ st) plugin);
  metadata ← (if includeUserMetadata then
                user ← gets (fun st => FindPlugin (userlist_ st) plugin);
                mret (MergeMetadata metadata user)
              else mret metadata);
  if evaluateConditions then evaluateAll metadata else mret metadata.

(** [ApiDatabase::GetPluginUserMetadata]. *)
Definition GetPluginUserMetadata (plugin : string) (evaluateConditions : bool) :
  M PluginMetadata :=
  metadata ← gets (fun st => FindPlugin (userlist_ st) plugin);
  if evaluateConditions then evaluateAll metadata else mret metadata.

(** [ApiDatabase::SetPluginUserMetadata]: erase, then add. *)
Definition SetPluginUserMetadata (pluginMetadata : PluginMetadata) : M unit :=
  modify (fun st => set_userlist (ErasePlugin pluginMetadata (userlist_ st)) st);;
  userlist ← gets userlist_;
  userlist ← lift (AddPlugin on_clash pluginMetadata userlist);
  modify (set_userlist userlist).

(** [ApiDatabase::DiscardPluginUserMetadata] and
    [ApiDatabase::DiscardAllUserMetadata]. *)
Definition DiscardPluginUserMetadata (plugin : string) : M unit :=
  modify (fun st =>
    set_userlist (ErasePlugin (newPluginMetadata plugin) (userlist_ st)) st).

Definition DiscardAllUserMetadata : M unit :=
  modify (fun st => set_userlist (Clear (userlist_ st)) st).

(** The entry built by the body of the loop of [WriteMinimalList]. *)
Definition minimalPlugin (plugin : PluginMetadata) : PluginMetadata :=
  SetDirtyInfo (GetDirtyInfo plugin)
    (SetTags (GetTags plugin) (newPluginMetadata (GetName plugin))).

(** The loop of [WriteMinimalList] over the masterlist plugins. *)
Fixpoint add_minimal (plugins : list PluginMetadata) (minimalList : MetadataList) :
  Outcome MetadataList :=
  match plugins with
  | [] => Returned minimalList
  | plugin :: rest =>
      outcome_bind (AddPlugin on_clash (minimalPlugin plugin) minimalList)
        (add_minimal rest)
  end.

(** [ApiDatabase::WriteMinimalList]. *)
Definition WriteMinimalList (outputFile : string) (overwrite : bool) : M unit :=
  fs ← gets disk;
  if negb (exists_ fs (parent_path outputFile)) then throw InvalidArgument
  else if exists_ fs outputFile && negb overwrite then throw FileAccessError
  else
    plugins ← gets (fun st => Plugins (masterlist_ st));
    minimalList ← lift (add_minimal plugins newMetadataList);
    save minimalList outputFile.

End Facade.

(** Modelled from the spec: the contract of the client of the version
    control system at one call (section 6, [Update] answers whether the
    contents changed; section 7, a failed update leaves the masterlist on
    disk untouched).  The update reports true exactly when the file at the
    path is not the one that was there. *)
Definition reports_change
    (Update : string -> string -> string -> gmap string Node ->
              Outcome bool * Masterlist * gmap string Node)
    (path url branch : string) (fs : gmap string Node) : Prop :=
  (Update path url branch fs).1.1 = Returned true ↔
  (Update path url branch fs).2 !! path ≠ fs !! path.

(** ** The sorter

    plugin_sorter.cpp and plugin.cpp are absent; the definitions of this
    part follow sections 3, 4.4 and 4.5 of the specification. *)

(** Modelled from the spec: the plugin view (section 3), with the
    attributes the sorter reads. *)
Record PluginView : Type := {
  view_name : string;
  view_is_master : bool;
  view_is_light : bool;
  view_masters : list string
}.

(** Modelled from the spec: the rule an edge comes from (section 4.4). *)
Inductive EdgeRule : Type :=
| MasterFlagRule
| HeaderMasterRule
| LoadAfterRule
| RequirementRule
| GroupRule
| TieBreakRule.

(** [edge_from] loads before [edge_to]. *)
Record Edge : Type := {
  edge_from : string;
  edge_to : string;
  edge_rule : EdgeRule
}.

(** Modelled from the spec: what the output is determined by (section
    4.5).  The installed plugins with their header masters and names, the
    masterlist and userlist whose merge gives groups, references and
    priorities, the group declarations (a name and the groups it loads
    after) and the current load order. *)
Record SortInput : Type := {
  installed : list PluginView;
  sort_masterlist : Masterlist;
  sort_userlist : MetadataList;
  group_after : list (string * list string);
  load_order : list string
}.

(** Modelled from the spec: the merged metadata of a plugin, the
    masterlist entry with the userlist entry merged into it. *)
Definition merged (inp : SortInput) (n : string) : PluginMetadata :=
  MergeMetadata (FindPlugin (sort_masterlist inp) n)
    (FindPlugin (sort_userlist inp) n).

(** Modelled from the spec: the installed plugin that a name resolves
    to, case apart. *)
Definition installed_as (inp : SortInput) (n : string) : option PluginView :=
  head (filter (fun v => to_lower (view_name v) = to_lower n) (installed inp)).

(** Modelled from the spec: a light plugin counts as a non-master for
    the partition (glossary). *)
Definition loads_as_master (v : PluginView) : bool :=
  view_is_master v && negb (view_is_light v).

Definition edge (a b : PluginView) (r : EdgeRule) : Edge :=
  {| edge_from := view_name a; edge_to := view_name b; edge_rule := r |}.

(** Modelled from the spec: rule 1, every master before every non-master. *)
Definition master_edges (inp : SortInput) : list Edge :=
  m ← installed inp;
  n ← installed inp;
  if loads_as_master m && negb (loads_as_master n)
  then [edge m n MasterFlagRule] else [].

(** Modelled from the spec: rule 2, a declared master before the plugin
    that declares it.  The
    vertices are the installed plugins: a master that is not installed
    gives no edge. *)
Definition header_edges (inp : SortInput) : list Edge :=
  p ← installed inp;
  m ← view_masters p;
  match installed_as inp m with
  | Some v => [edge v p HeaderMasterRule]
  | None => []
  end.

(** Modelled from the spec: rules 3 and 4, a reference that resolves to
    an installed plugin before the plugin whose merged metadata holds it. *)
Definition reference_edges (rule : EdgeRule)
    (refs : PluginMetadata -> gmap (string * option string) File)
    (inp : SortInput) : list Edge :=
  p ← installed inp;
  r ← (map_to_list (refs (merged inp (view_name p)))).*2;
  match installed_as inp (file_name r) with
  | Some v => [edge v p rule]
  | None => []
  end.

(** The edges of rules 1 to 4. *)
Definition hard_edges (inp : SortInput) : list Edge :=
  master_edges inp ++ header_edges inp
  ++ reference_edges LoadAfterRule load_after inp
  ++ reference_edges RequirementRule requirements inp.

(** There is a path of at most [fuel] edges from [a] to [b]. *)
Fixpoint reaches (fuel : nat) (g : list Edge) (a b : string) : bool :=
  match fuel with
  | O => false
  | S fuel =>
      existsb
        (fun e =>
           String.eqb (edge_from e) a &&
           (String.eqb (edge_to e) b || reaches fuel g (edge_to e) b))
        g
  end.

(** The graph orders [a] before [b].  A path that repeats no edge has at
    most as many edges as the graph. *)
Definition ordered (g : list Edge) (a b : string) : bool :=
  reaches (length g) g a b.

(** Modelled from the spec: rule 5.  A group precedes the groups declared
    to load after it, and transitively. *)
Definition group_graph (inp : SortInput) : list Edge :=
  ga ← group_after inp;
  a ← ga.2;
  [ {| edge_from := a; edge_to := ga.1; edge_rule := GroupRule |} ].

Definition group_precedes (inp : SortInput) (a b : string) : bool :=
  ordered (group_graph inp) a b.

Definition group_candidates (inp : SortInput) : list (PluginView * PluginView) :=
  p ← installed inp;
  q ← installed inp;
  match group (merged inp (view_name p)), group (merged inp (view_name q)) with
  | Some a, Some b => if group_precedes inp a b then [(p, q)] else []
  | _, _ => []
  end.

(** Modelled from the spec: a group edge is soft (section 4.4, rule 5).
    The edge of a candidate pair is left out when it would introduce a
    cycle with the edges of rules 1 to 4, the graph [g]. *)
Definition group_edge (g : list Edge) (pq : PluginView * PluginView) :
  list Edge :=
  if String.eqb (view_name pq.1) (view_name pq.2)
     || ordered g (view_name pq.2) (view_name pq.1)
  then []
  else [edge pq.1 pq.2 GroupRule].

Definition group_edges (inp : SortInput) (g : list Edge) : list Edge :=
  group_candidates inp ≫= group_edge g.

(** Modelled from the spec: rule 6.  An unset priority counts as zero. *)
Definition priority_value (p : Priority) : Z :=
  match p with
  | PriorityUnset => 0
  | PriorityDefault v => v
  | PriorityUser v => v
  end.

(** The place of a plugin in the current load order, when it has one. *)
Definition load_order_index (inp : SortInput) (n : string) : option nat :=
  fst <$> list_find (fun m => to_lower m = to_lower n) (load_order inp).

(** Modelled from the spec: the comparison of rule 6.  [p] goes before
    [q] by higher global priority, then by higher priority, then by
    load-order index when both have one, then by name, case apart. *)
Definition loads_first (inp : SortInput) (p q : PluginView) : bool :=
  let mp := merged inp (view_name p) in
  let mq := merged inp (view_name q) in
  let by_name := String.leb (to_lower (view_name p)) (to_lower (view_name q)) in
  let by_index :=
    match load_order_index inp (view_name p),
          load_order_index inp (view_name q) with
    | Some i, Some j =>
        if (i <? j)%nat then true else if (j <? i)%nat then false else by_name
    | _, _ => by_name
    end in
  let by_priority :=
    if (priority_value (priority mq) <? priority_value (priority mp))%Z then true
    else if (priority_value (priority mp) <? priority_value (priority mq))%Z
         then false
         else by_index in
  if (priority_value (global_priority mq)
      <? priority_value (global_priority mp))%Z then true
  else if (priority_value (global_priority mp)
           <? priority_value (global_priority mq))%Z then false
       else by_priority.

(** The candidate pairs of rule 6: every two installed plugins, once. *)
Fixpoint pairs {A} (l : list A) : list (A * A) :=
  match l with
  | [] => []
  | x :: rest => (pair x <$> rest) ++ pairs rest
  end.

(** Modelled from the spec: rule 6 (sections 4.4 and 4.5).  A pair still
    unordered after rules 1 to 5, the graph [g], gets the edge that the
    comparison dictates. *)
Definition tie_break (inp : SortInput) (g : list Edge)
    (pq : PluginView * PluginView) : list Edge :=
  if ordered g (view_name pq.1) (view_name pq.2)
     || ordered g (view_name pq.2) (view_name pq.1)
  then []
  else if loads_first inp pq.1 pq.2
       then [edge pq.1 pq.2 TieBreakRule]
       else [edge pq.2 pq.1 TieBreakRule].

Definition tie_break_edges (inp : SortInput) (g : list Edge) : list Edge :=
  pairs (installed inp) ≫= tie_break inp g.

(** The edges of rules 1 to 5. *)
Definition ruled_edges (inp : SortInput) : list Edge :=
  hard_edges inp ++ group_edges inp (hard_edges inp).

(** Modelled from the spec: the graph of a sort, the edges of rules 1 to
    5 and the tie-break edges between the pairs they leave unordered. *)
Definition sort_graph (inp : SortInput) : list Edge :=
  ruled_edges inp ++ tie_break_edges inp (ruled_edges inp).

(** There is a path from the first vertex to the second. *)
Inductive path (g : list Edge) : string -> string -> Prop :=
| path_edge e : e ∈ g → path g (edge_from e) (edge_to e)
| path_step e c : e ∈ g → path g (edge_to e) c → path g (edge_from e) c.

(** [a] stands before [b] in the order. *)
Definition precedes (order : list string) (a b : string) : Prop :=
  ∃ i j, order !! i = Some a ∧ order !! j = Some b ∧ i < j.

(** Modelled from the spec: what a sort yields (section 4.5).  The
    traversal ends in an order of the installed plugins in which every
    edge of the graph points forward (the reverse post-order of an
    acyclic graph), or in [CyclicInteractionError] when it meets a cycle.
    The order in which the traversal visits vertices and edges is left
    open. *)
Inductive sort_result (inp : SortInput) : Outcome (list string) -> Prop :=
| sort_returns order :
    order ≡ₚ view_name <$> installed inp →
    (∀ e, e ∈ sort_graph inp → precedes order (edge_from e) (edge_to e)) →
    sort_result inp (Returned order)
| sort_throws v :
    path (sort_graph inp) v v →
    sort_result inp (Thrown CyclicInteractionError).

(** The installed plugins are a set: no two share a name, case apart. *)
Definition distinct_names (inp : SortInput) : Prop :=
  NoDup (to_lower ∘ view_name <$> installed inp).

(** Two graphs have the same edges. *)
Definition same_edges (g1 g2 : list Edge) : Prop := ∀ e, e ∈ g1 ↔ e ∈ g2.

(** Modelled from the spec: identical inputs of a sort (section 4.5).  The
    same installed plugins (with their header masters and names), listed
    in any order; the same merged metadata (with the priorities) for every
    name; the same group order; the same current load order. *)
Definition same_input (inp1 inp2 : SortInput) : Prop :=
  installed inp1 ≡ₚ installed inp2 ∧
  (∀ n, merged inp1 n = merged inp2 n) ∧
  same_edges (group_graph inp1) (group_graph inp2) ∧
  load_order inp1 = load_order inp2.

Global Instance EdgeRule_eq_dec : EqDecision EdgeRule.
Proof. solve_decision. Defined.
Global Instance Edge_eq_dec : EqDecision Edge.
Proof. solve_decision. Defined.

(** A walk lists the edges of a path. *)
Inductive walk (g : list Edge) : string -> list Edge -> string -> Prop :=
| walk_one e : e ∈ g → walk g (edge_from e) [e] (edge_to e)
| walk_cons e es c :
    e ∈ g → walk g (edge_to e) es c → walk g (edge_from e) (e :: es) c.

(** The vertices of the graph of a sort. *)
Definition names (inp : SortInput) : list string := view_name <$> installed inp.

(** Every edge joins two installed plugins. *)
Definition within (inp : SortInput) (g : list Edge) : Prop :=
  ∀ e, e ∈ g → edge_from e ∈ names inp ∧ edge_to e ∈ names inp.

Definition acyclic (g : list Edge) : Prop := ∀ v, ¬ path g v v.

(** The vertices lined up along the paths of a graph, by insertion: the
    order that exists when the graph has no cycle and orders every two
    vertices. *)
Fixpoint place (g : list Edge) (x : string) (l : list string) : list string :=
  match l with
  | [] => [x]
  | y :: rest => if ordered g x y then x :: y :: rest else y :: place g x rest
  end.

Definition line_up (g : list Edge) (l : list string) : list string :=
  foldr (place g) [] l.

(** Checks of an order against a graph, for the examples. *)
Fixpoint index_of (a : string) (l : list string) : option nat :=
  match l with
  | [] => None
  | x :: rest => if String.eqb x a then Some 0 else S <$> index_of a rest
  end.

Definition precedesb (order : list string) (a b : string) : bool :=
  match index_of a order, index_of b order with
  | Some i, Some j => (i <? j)%nat
  | _, _ => false
  end.

Definition respectsb (g : list Edge) (order : list string) : bool :=
  forallb (fun e => precedesb order (edge_from e) (edge_to e)) g.

(** ** Reading one list

    What [LoadLists] does for each of its two paths: nothing for the empty
    path, a load for a path that exists, a [FileAccessError] otherwise. *)
Definition read_list (fs : gmap string Node) (path : string) : Outcome MetadataList :=
  if bool_decide (path = "") then Returned newMetadataList
  else if exists_ fs path then Load fs path
  else Thrown FileAccessError.

(** A supplied path at which nothing exists. *)
Definition missing (fs : gmap string Node) (path : string) : Prop :=
  path ≠ "" ∧ exists_ fs path = false.

(** A supplied path at which something exists that does not load. *)
Definition unloadable (fs : gmap string Node) (path : string) : Prop :=
  path ≠ "" ∧ exists_ fs path = true ∧ ∃ e, Load fs path = Thrown e.

(** The plugin carries tag suggestions or cleaning data. *)
Definition carries_tags_or_cleaning (p : PluginMetadata) : Prop :=
  tags p ≠ ∅ ∨ dirty_info p ≠ ∅.

(** ** Visible messages *)

Section Visible.

Variable resolve : gmap string Node -> string -> Outcome bool.

(** The value of an optional condition against the files, cache apart: an
    absent condition holds. *)
Definition condition_value (fs : gmap string Node) (condition : option string) :
  Outcome bool :=
  match condition with
  | None => Returned true
  | Some c => resolve fs c
  end.

(** A message is visible iff its condition evaluates to true or is absent. *)
Definition visible (fs : gmap string Node) (m : Message) : Prop :=
  condition_value fs (GetCondition m) = Returned true.

Global Instance visible_dec fs m : Decision (visible fs m).
Proof. unfold visible. apply _. Defined.

(** Every cached result is the value of its condition. *)
Definition cache_sound (st : State) : Prop :=
  ∀ c b, conditions_ (gameCache_ st) !! c = Some b →
         resolve (disk st) c = Returned b.

End Visible.

(** ** Example data *)

(** A [parent_path] for the examples: the text before the last slash, and
    the empty path when there is none. *)
Fixpoint before_last_slash (s : string) : option string :=
  match s with
  | EmptyString => None
  | String c r =>
      match before_last_slash r with
      | Some p => Some (String c p)
      | None => if Ascii.eqb c "/" then Some EmptyString else None
      end
  end.

Definition example_parent_path (s : string) : string :=
  default "" (before_last_slash s).

(** The condition texts of the examples are written without their inner
    quotation marks. *)
Definition example_tag : Tag :=
  {| tag_name := "Relev"; tag_is_addition := true;
     tag_condition := Some "file(Blank.esm)" |}.

Definition example_cleaning : PluginCleaningData :=
  {| cleaning_crc := 3735928559; cleaning_utility := "TES4Edit";
     cleaning_itm := 4; cleaning_deleted_references := 1;
     cleaning_deleted_navmeshes := 0; cleaning_info := [] |}.

Definition example_message (text : string) (condition : option string) : Message :=
  {| message_type := say;
     message_content := [ {| content_language := "en"; content_text := text |} ];
     message_condition := condition |}.

(** A masterlist entry with a group, a priority, a message, a tag and
    cleaning data. *)
Definition example_tagged : PluginMetadata :=
  {| name := "Blank.esm"; group := Some "early"; enabled := Some true;
     priority := PriorityUser 5; global_priority := PriorityUnset;
     load_after := ∅; requirements := ∅; incompatibilities := ∅;
     messages := [example_message "dirty" None];
     tags := {[ tag_key example_tag := example_tag ]};
     dirty_info := {[ cleaning_crc example_cleaning := example_cleaning ]};
     locations := {[ "https://example.invalid/blank" ]} |}.

(** A masterlist entry with a group and nothing else. *)
Definition example_grouped : PluginMetadata :=
  {| name := "Blank.esp"; group := Some "late"; enabled := None;
     priority := PriorityUnset; global_priority := PriorityUnset;
     load_after := ∅; requirements := ∅; incompatibilities := ∅;
     messages := []; tags := ∅; dirty_info := ∅; locations := ∅ |}.

Definition example_masterlist : Masterlist :=
  {| plugins_ := {[ plugin_key example_tagged := example_tagged;
                    plugin_key example_grouped := example_grouped ]};
     messages_ := [example_message "always" None;
                   example_message "if missing" (Some "file(Missing.esp)")];
     bashTags_ := {[ "Relev"; "Delev" ]} |}.

Definition example_userlist : MetadataList :=
  {| plugins_ := {[ plugin_key example_grouped :=
                      SetTags {[ tag_key example_tag := example_tag ]}
                        example_grouped ]};
     messages_ := [example_message "if present" (Some "file(Blank.esm)")];
     bashTags_ := {[ "C.Water" ]} |}.

Definition example_disk : gmap string Node :=
  {[ "data" := Directory;
     "data/masterlist.yaml" := RegularFile (WellFormed example_masterlist);
     "data/userlist.yaml" := RegularFile (WellFormed example_userlist);
     "data/broken.yaml" := RegularFile (Malformed ConditionSyntaxError);
     "data/Blank.esm" := RegularFile (Malformed FileAccessError) ]}.

Definition example_state : State :=
  {| masterlist_ := example_masterlist; userlist_ := example_userlist;
     gameCache_ := {| conditions_ := {[ "file(Missing.esp)" := true ]} |};
     disk := example_disk |}.

(** A resolver for the examples: a [file] condition holds when the named
    file is on the disk below "data". *)
Definition example_resolve (fs : gmap string Node) (c : string) : Outcome bool :=
  if bool_decide (c = "file(Blank.esm)") then Returned (exists_ fs "data/Blank.esm")
  else if bool_decide (c = "file(Missing.esp)") then Returned (exists_ fs "data/Missing.esp")
  else Thrown ConditionSyntaxError.

(** An [AddPlugin] for the examples: a name already held is refused. *)
Definition example_on_clash (held given : PluginMetadata) : Outcome PluginMetadata :=
  Thrown InvalidArgument.

(** An update for the examples: branch "master" brings a new masterlist,
    branch "stable" has nothing new, any other branch is unknown. *)
Definition example_Update (path url branch : string) (fs : gmap string Node) :
  Outcome bool * Masterlist * gmap string Node :=
  if bool_decide (branch = "master") then
    (Returned true, example_userlist,
     <[path := RegularFile (WellFormed example_userlist)]> fs)
  else if bool_decide (branch = "stable") then
    (Returned false, example_masterlist, fs)
  else (Thrown GitStateError, newMetadataList, fs).

(** The end-to-end scenarios of section 8 of the specification. *)
Definition view (n : string) (master : bool) (masters : list string) : PluginView :=
  {| view_name := n; view_is_master := master; view_is_light := false;
     view_masters := masters |}.

Definition list_of (entries : list PluginMetadata) : MetadataList :=
  {| plugins_ := list_to_map ((fun p => (plugin_key p, p)) <$> entries);
     messages_ := []; bashTags_ := ∅ |}.

Definition reference (n : string) : File :=
  {| file_name := n; file_display := None; file_condition := None |}.

Definition with_priority (v : Z) (n : string) : PluginMetadata :=
  {| name := n; group := None; enabled := None;
     priority := PriorityUser v; global_priority := PriorityUnset;
     load_after := ∅; requirements := ∅; incompatibilities := ∅;
     messages := []; tags := ∅; dirty_info := ∅; locations := ∅ |}.

Definition with_load_after (after n : string) : PluginMetadata :=
  {| name := n; group := None; enabled := None;
     priority := PriorityUnset; global_priority := PriorityUnset;
     load_after := {[ file_key (reference after) := reference after ]};
     requirements := ∅; incompatibilities := ∅;
     messages := []; tags := ∅; dirty_info := ∅; locations := ∅ |}.

Definition with_group (g n : string) : PluginMetadata :=
  {| name := n; group := Some g; enabled := None;
     priority := PriorityUnset; global_priority := PriorityUnset;
     load_after := ∅; requirements := ∅; incompatibilities := ∅;
     messages := []; tags := ∅; dirty_info := ∅; locations := ∅ |}.

Definition scenario_plugins : list PluginView :=
  [ view "ModB.esp" false ["Base.esm"]; view "Base.esm" true [];
    view "ModA.esp" false [] ].

Definition scenario_A : SortInput :=
  {| installed := scenario_plugins;
     sort_masterlist := newMetadataList; sort_userlist := newMetadataList;
     group_after := []; load_order := [] |}.

Definition scenario_B : SortInput :=
  {| installed := scenario_plugins;
     sort_masterlist := newMetadataList;
     sort_userlist := list_of [with_priority 10 "ModB.esp"];
     group_after := []; load_order := [] |}.

(** Scenario B with the installed plugins listed in another order. *)
Definition scenario_B_relisted : SortInput :=
  {| installed :=
       [ view "Base.esm" true []; view "ModA.esp" false [];
         view "ModB.esp" false ["Base.esm"] ];
     sort_masterlist := newMetadataList;
     sort_userlist := list_of [with_priority 10 "ModB.esp"];
     group_after := []; load_order := [] |}.

(** Priorities that go against a header master: "B.esp" declares the
    master "A.esp", and the masterlist gives "B.esp" the priority 10 and
    "C.esp" the priority 5. *)
Definition scenario_priorities : SortInput :=
  {| installed :=
       [ view "A.esp" false []; view "B.esp" false ["A.esp"];
         view "C.esp" false [] ];
     sort_masterlist :=
       list_of [with_priority 10 "B.esp"; with_priority 5 "C.esp"];
     sort_userlist := newMetadataList;
     group_after := []; load_order := [] |}.

Definition scenario_C : SortInput :=
  {| installed := scenario_plugins;
     sort_masterlist := list_of [with_load_after "ModB.esp" "ModA.esp"];
     sort_userlist := list_of [with_load_after "ModA.esp" "ModB.esp"];
     group_after := []; load_order := [] |}.

Definition scenario_F : SortInput :=
  {| installed := [view "P.esp" false []; view "Q.esp" false []];
     sort_masterlist := list_of [with_group "B" "P.esp"; with_group "A" "Q.esp"];
     sort_userlist := newMetadataList;
     group_after := [("A", []); ("B", ["A"])]; load_order := [] |}.

(** A state whose second masterlist message has a condition that does not
    parse. *)
Definition example_unresolvable_state : State :=
  set_masterlist
    {| plugins_ := ∅;
       messages_ := [example_message "always" None;
                     example_message "garbled" (Some "nonsense");
                     example_message "if missing" (Some "file(Missing.esp)")];
       bashTags_ := ∅ |}
    example_state.

(** ** Logging (api/helpers/logging.h) *)

Module spdlog.

(** [spdlog::level::level_enum]; [off] is the one value that the switch of
    [mapFromSpdlog] does not name. *)
Inductive level_enum : Type :=
| trace | debug | info | warn | err | critical | off.

End spdlog.

Module LogLevel.

(** [loot::LogLevel], with the values that [mapFromSpdlog] returns. *)
Inductive t : Type :=
| trace | debug | info | warning | error | fatal.

End LogLevel.

(** [SpdLoggingSink::mapFromSpdlog]. *)
Definition mapFromSpdlog (severity : spdlog.level_enum) : LogLevel.t :=
  match severity with
  | spdlog.trace => LogLevel.trace
  | spdlog.debug => LogLevel.debug
  | spdlog.info => LogLevel.info
  | spdlog.warn => LogLevel.warning
  | spdlog.err => LogLevel.error
  | spdlog.critical => LogLevel.fatal
  | _ => LogLevel.trace
  end.

(** * Properties *)

Ltac run :=
  unfold mbind, M_bind, mret, M_ret, gets, lift, throw, modify; simpl.

(** ** LoadLists *)

Lemma LoadLists_run masterlistPath userlistPath st :
  LoadLists masterlistPath userlistPath st =
  match read_list (disk st) masterlistPath with
  | Thrown e => (Thrown e, st)
  | Returned temp =>
      match read_list (disk st) userlistPath with
      | Thrown e => (Thrown e, st)
      | Returned userTemp =>
          (Returned tt, set_userlist userTemp (set_masterlist temp st))
      end
  end.
Proof.
  unfold LoadLists, read_list. run.
  destruct (bool_decide (masterlistPath = "")); simpl.
  - destruct (bool_decide (userlistPath = "")); simpl; [done|].
    destruct (exists_ (disk st) userlistPath); simpl; [|done].
    destruct (Load (disk st) userlistPath); done.
  - destruct (exists_ (disk st) masterlistPath); simpl; [|done].
    destruct (Load (disk st) masterlistPath); simpl; [|done].
    destruct (bool_decide (userlistPath = "")); simpl; [done|].
    destruct (exists_ (disk st) userlistPath); simpl; [|done].
    destruct (Load (disk st) userlistPath); done.
Qed.

Lemma read_list_missing fs path :
  missing fs path → read_list fs path = Thrown FileAccessError.
Proof.
  intros [Hne Hex]. unfold read_list.
  rewrite bool_decide_eq_false_2 by done. by rewrite Hex.
Qed.

Lemma read_list_thrown fs path e :
  read_list fs path = Thrown e →
  (missing fs path ∧ e = FileAccessError) ∨
  (path ≠ "" ∧ exists_ fs path = true ∧ Load fs path = Thrown e).
Proof.
  unfold read_list, missing. case_bool_decide as Hp; [done|].
  destruct (exists_ fs path) eqn:Hex.
  - intros HL. right. done.
  - intros [= <-]. left. done.
Qed.

(** C9: when [LoadLists] throws, whether for a missing file or for a file
    that does not parse, the stored masterlist and userlist are the ones
    held before the call (nothing at all has changed): both files are read
    into temporaries before either member is assigned. *)
Theorem LoadLists_failure_keeps_lists masterlistPath userlistPath st e st' :
  LoadLists masterlistPath userlistPath st = (Thrown e, st') →
  masterlist_ st' = masterlist_ st ∧ userlist_ st' = userlist_ st ∧ st' = st.
Proof.
  rewrite LoadLists_run.
  destruct (read_list (disk st) masterlistPath) as [temp|e1].
  - destruct (read_list (disk st) userlistPath) as [userTemp|e2].
    + discriminate.
    + intros [= _ <-]. done.
  - intros [= _ <-]. done.
Qed.

(** The masterlist loads and the userlist does not parse: the masterlist
    already read is not stored. *)
Lemma LoadLists_failure_keeps_lists_witness :
  Load (disk example_state) "data/masterlist.yaml" = Returned example_masterlist ∧
  (LoadLists "data/masterlist.yaml" "data/broken.yaml"
     (set_masterlist newMetadataList example_state)).1
  = Thrown ConditionSyntaxError ∧
  masterlist_
    (LoadLists "data/masterlist.yaml" "data/broken.yaml"
       (set_masterlist newMetadataList example_state)).2
  = newMetadataList.
Proof.
  split; [vm_compute; reflexivity|]. split; [vm_compute; reflexivity|].
  refine (proj1 (LoadLists_failure_keeps_lists
                   "data/masterlist.yaml" "data/broken.yaml"
                   (set_masterlist newMetadataList example_state)
                   ConditionSyntaxError _ _)).
  vm_compute. reflexivity.
Defined.

(** C10: a call of [LoadLists] that returns has assigned both stored lists
    from its arguments alone: an empty path leaves an empty list in place
    of whatever was loaded before, and a path that is not empty leaves the
    list loaded from it. *)
Theorem LoadLists_success_overwrites masterlistPath userlistPath st st' :
  LoadLists masterlistPath userlistPath st = (Returned tt, st') →
  (masterlistPath = "" → masterlist_ st' = newMetadataList) ∧
  (userlistPath = "" → userlist_ st' = newMetadataList) ∧
  (masterlistPath ≠ "" → Load (disk st) masterlistPath = Returned (masterlist_ st')) ∧
  (userlistPath ≠ "" → Load (disk st) userlistPath = Returned (userlist_ st')).
Proof.
  rewrite LoadLists_run. unfold read_list.
  destruct (bool_decide_reflect (masterlistPath = "")) as [Hm|Hm];
    destruct (bool_decide_reflect (userlistPath = "")) as [Hu|Hu].
  - intros [= <-]. done.
  - destruct (exists_ (disk st) userlistPath); [|discriminate].
    destruct (Load (disk st) userlistPath) as [u|]; [|discriminate].
    intros [= <-]. done.
  - destruct (exists_ (disk st) masterlistPath); [|discriminate].
    destruct (Load (disk st) masterlistPath) as [m|]; [|discriminate].
    intros [= <-]. done.
  - destruct (exists_ (disk st) masterlistPath); [|discriminate].
    destruct (Load (disk st) masterlistPath) as [m|]; [|discriminate].
    destruct (exists_ (disk st) userlistPath); [|discriminate].
    destruct (Load (disk st) userlistPath) as [u|]; [|discriminate].
    intros [= <-]. done.
Qed.

(** Both lists are loaded, then the masterlist path is left empty: the
    masterlist held afterwards is the empty one. *)
Lemma LoadLists_success_overwrites_witness :
  masterlist_ example_state ≠ newMetadataList ∧
  masterlist_
    (LoadLists "" "data/userlist.yaml" example_state).2 = newMetadataList.
Proof.
  split; [vm_compute; discriminate|].
  refine (proj1 (LoadLists_success_overwrites "" "data/userlist.yaml"
                   example_state _ _) eq_refl).
  vm_compute. reflexivity.
Defined.

Lemma read_list_returned fs path l :
  read_list fs path = Returned l → ¬ missing fs path.
Proof.
  unfold read_list, missing. intros H [Hne Hex].
  rewrite bool_decide_eq_false_2, Hex in H by done. discriminate.
Qed.

Lemma read_list_thrown_loadable fs path e :
  ¬ unloadable fs path → read_list fs path = Thrown e →
  missing fs path ∧ e = FileAccessError.
Proof.
  intros Hl H. destruct (read_list_thrown _ _ _ H) as [?|(?&?&?)]; [done|].
  destruct Hl. unfold unloadable. eauto.
Qed.

(** A supplied file that exists and does not load makes [LoadLists] throw
    the loader's error; the masterlist is read before the userlist path is
    looked at. *)
Lemma LoadLists_unloadable masterlistPath userlistPath st e :
  (masterlistPath ≠ "" → exists_ (disk st) masterlistPath = true →
   Load (disk st) masterlistPath = Thrown e →
   LoadLists masterlistPath userlistPath st = (Thrown e, st)) ∧
  (∀ temp, read_list (disk st) masterlistPath = Returned temp →
   userlistPath ≠ "" → exists_ (disk st) userlistPath = true →
   Load (disk st) userlistPath = Thrown e →
   LoadLists masterlistPath userlistPath st = (Thrown e, st)).
Proof.
  split.
  - intros Hne Hex HL. rewrite LoadLists_run. unfold read_list.
    rewrite bool_decide_eq_false_2, Hex, HL by done. done.
  - intros temp Hm Hne Hex HL. rewrite LoadLists_run, Hm. unfold read_list.
    rewrite bool_decide_eq_false_2, Hex, HL by done. done.
Qed.

(** C8 (amended): when every supplied file that exists loads, [LoadLists]
    throws [FileAccessError] exactly when a supplied path is not empty and
    nothing exists at it, and returns otherwise; an empty path is never
    the cause of an error. *)
Theorem LoadLists_FileAccessError_iff_missing masterlistPath userlistPath st :
  ¬ unloadable (disk st) masterlistPath →
  ¬ unloadable (disk st) userlistPath →
  ((LoadLists masterlistPath userlistPath st).1 = Thrown FileAccessError ↔
     missing (disk st) masterlistPath ∨ missing (disk st) userlistPath) ∧
  ((LoadLists masterlistPath userlistPath st).1 = Returned tt ↔
     ¬ (missing (disk st) masterlistPath ∨ missing (disk st) userlistPath)) ∧
  (masterlistPath = "" → ¬ missing (disk st) masterlistPath) ∧
  (userlistPath = "" → ¬ missing (disk st) userlistPath).
Proof.
  intros Hm Hu. rewrite LoadLists_run.
  assert (He1 : masterlistPath = "" → ¬ missing (disk st) masterlistPath)
    by (intros -> [? _]; done).
  assert (He2 : userlistPath = "" → ¬ missing (disk st) userlistPath)
    by (intros -> [? _]; done).
  destruct (read_list (disk st) masterlistPath) as [temp|e1] eqn:Em.
  - pose proof (read_list_returned _ _ _ Em) as Hnm.
    destruct (read_list (disk st) userlistPath) as [userTemp|e2] eqn:Eu.
    + pose proof (read_list_returned _ _ _ Eu) as Hnu. simpl.
      repeat split; try done; tauto.
    + destruct (read_list_thrown_loadable _ _ _ Hu Eu) as [Hmiss ->]. simpl.
      repeat split; try done; tauto.
  - destruct (read_list_thrown_loadable _ _ _ Hm Em) as [Hmiss ->]. simpl.
    repeat split; try done; tauto.
Qed.

(** The masterlist loads and nothing exists at the userlist path. *)
Lemma LoadLists_FileAccessError_iff_missing_witness :
  (LoadLists "data/masterlist.yaml" "data/nothing.yaml" example_state).1
  = Thrown FileAccessError.
Proof.
  refine (proj2 (proj1 (LoadLists_FileAccessError_iff_missing
            "data/masterlist.yaml" "data/nothing.yaml" example_state _ _)) _).
  - intros (_ & _ & e & H). vm_compute in H. discriminate.
  - intros (_ & H & _). vm_compute in H. discriminate.
  - right. split; [discriminate | vm_compute; reflexivity].
Defined.

(** Without the proviso the equivalence of C8 fails: nothing exists at
    the userlist path that was supplied, and the error thrown is not
    [FileAccessError] but the one of the masterlist that does not parse. *)
Lemma LoadLists_missing_userlist_other_error :
  missing (disk example_state) "data/nothing.yaml" ∧
  (LoadLists "data/broken.yaml" "data/nothing.yaml" example_state).1
  = Thrown ConditionSyntaxError ∧
  ¬ ((LoadLists "data/broken.yaml" "data/nothing.yaml" example_state).1
     = Thrown FileAccessError ↔
     missing (disk example_state) "data/broken.yaml" ∨
     missing (disk example_state) "data/nothing.yaml").
Proof.
  assert (Hmiss : missing (disk example_state) "data/nothing.yaml")
    by (split; [discriminate | vm_compute; reflexivity]).
  assert (Hrun : (LoadLists "data/broken.yaml" "data/nothing.yaml"
                    example_state).1 = Thrown ConditionSyntaxError)
    by (vm_compute; reflexivity).
  split; [exact Hmiss|]. split; [exact Hrun|].
  intros [_ H]. rewrite Hrun in H. specialize (H (or_intror Hmiss)).
  discriminate.
Qed.

(** ** Writing lists and updating the masterlist *)

Section Writing.

Variable parent_path : string -> string.
Variable on_clash : PluginMetadata -> PluginMetadata -> Outcome PluginMetadata.
Variable Update :
  string -> string -> string -> gmap string Node ->
  Outcome bool * Masterlist * gmap string Node.

(** C7 (amended): [WriteUserMetadata] and [WriteMinimalList] throw
    [InvalidArgument] when the parent directory of the output file does
    not exist; when it exists, the output file exists and [overwrite] is
    false, they throw [FileAccessError]; in both cases nothing is written
    (the state after the call is the state before it). *)
Theorem write_refusals outputFile overwrite st :
  (exists_ (disk st) (parent_path outputFile) = false →
   WriteUserMetadata parent_path outputFile overwrite st
     = (Thrown InvalidArgument, st) ∧
   WriteMinimalList parent_path on_clash outputFile overwrite st
     = (Thrown InvalidArgument, st)) ∧
  (exists_ (disk st) (parent_path outputFile) = true →
   exists_ (disk st) outputFile = true → overwrite = false →
   WriteUserMetadata parent_path outputFile overwrite st
     = (Thrown FileAccessError, st) ∧
   WriteMinimalList parent_path on_clash outputFile overwrite st
     = (Thrown FileAccessError, st)).
Proof.
  unfold WriteUserMetadata, WriteMinimalList. run. split.
  - intros ->. done.
  - intros -> -> ->. done.
Qed.

(** C4: [UpdateMasterlist] returns true exactly when the parent of the
    masterlist path is a directory and the update reports a change; with a
    valid parent it returns what the update reports.  The stored
    masterlist is the newly parsed one when the call returns true, and in
    every other case (no change, an error of the update, an invalid path)
    is the one held before; the userlist is never touched.  The files are
    left as the update leaves them, and as they were when the update is
    not attempted; so, for an update that reports true exactly when the
    masterlist file is not what it was, the call returns true exactly when
    the masterlist file on disk has changed. *)
Theorem UpdateMasterlist_swaps_iff_changed masterlistPath remoteURL remoteBranch st :
  let update := Update masterlistPath remoteURL remoteBranch (disk st) in
  let call :=
    UpdateMasterlist parent_path Update masterlistPath remoteURL remoteBranch st in
  (call.1 = Returned true ↔
     is_directory (disk st) (parent_path masterlistPath) = true ∧
     update.1.1 = Returned true) ∧
  (is_directory (disk st) (parent_path masterlistPath) = true →
     call.1 = update.1.1) ∧
  (call.1 = Returned true → masterlist_ call.2 = update.1.2) ∧
  (call.1 ≠ Returned true → masterlist_ call.2 = masterlist_ st) ∧
  userlist_ call.2 = userlist_ st ∧
  (is_directory (disk st) (parent_path masterlistPath) = true →
     disk call.2 = update.2) ∧
  (is_directory (disk st) (parent_path masterlistPath) = false →
     disk call.2 = disk st) ∧
  (reports_change Update masterlistPath remoteURL remoteBranch (disk st) →
     (call.1 = Returned true ↔
        disk call.2 !! masterlistPath ≠ disk st !! masterlistPath)).
Proof.
  unfold reports_change, UpdateMasterlist. run.
  destruct (is_directory (disk st) (parent_path masterlistPath)); simpl.
  - destruct (Update masterlistPath remoteURL remoteBranch (disk st))
      as [[changed masterlist] fs'] eqn:EU. simpl.
    destruct changed as [[|]|e]; simpl; repeat split; try done; tauto.
  - repeat split; try done. intros [? _]. done.
Qed.

End Writing.

(** The output file exists and [overwrite] is false. *)
Lemma write_refusals_witness :
  WriteUserMetadata example_parent_path "data/userlist.yaml" false example_state
    = (Thrown FileAccessError, example_state) ∧
  WriteMinimalList example_parent_path example_on_clash
    "data/userlist.yaml" false example_state
    = (Thrown FileAccessError, example_state).
Proof.
  apply (write_refusals example_parent_path example_on_clash
           "data/userlist.yaml" false example_state);
    vm_compute; reflexivity.
Defined.

(** The error for an output file that exists is not [InvalidArgument]:
    the file exists, [overwrite] is false, and both functions throw
    [FileAccessError]. *)
Lemma write_existing_is_FileAccessError :
  exists_ (disk example_state) "data/userlist.yaml" = true ∧
  (WriteUserMetadata example_parent_path "data/userlist.yaml" false
     example_state).1 = Thrown FileAccessError ∧
  (WriteMinimalList example_parent_path example_on_clash "data/userlist.yaml"
     false example_state).1 = Thrown FileAccessError ∧
  (WriteUserMetadata example_parent_path "data/userlist.yaml" false
     example_state).1 ≠ Thrown InvalidArgument.
Proof.
  repeat split; try (vm_compute; reflexivity). vm_compute. discriminate.
Qed.

(** The update of branch "master" reports a change and puts a new file at
    the masterlist path, the one of branch "stable" does neither. *)
Lemma UpdateMasterlist_swaps_iff_changed_witness :
  (masterlist_
     (UpdateMasterlist example_parent_path example_Update
        "data/masterlist.yaml" "https://example.invalid/repo" "master"
        example_state).2 = example_userlist ∧
   disk
     (UpdateMasterlist example_parent_path example_Update
        "data/masterlist.yaml" "https://example.invalid/repo" "master"
        example_state).2 !! "data/masterlist.yaml"
   ≠ disk example_state !! "data/masterlist.yaml") ∧
  (masterlist_
     (UpdateMasterlist example_parent_path example_Update
        "data/masterlist.yaml" "https://example.invalid/repo" "stable"
        example_state).2 = masterlist_ example_state ∧
   (UpdateMasterlist example_parent_path example_Update
      "data/masterlist.yaml" "https://example.invalid/repo" "stable"
      example_state).1 ≠ Returned true).
Proof.
  pose proof (UpdateMasterlist_swaps_iff_changed
                example_parent_path example_Update
                "data/masterlist.yaml" "https://example.invalid/repo" "master"
                example_state) as Hmaster.
  pose proof (UpdateMasterlist_swaps_iff_changed
                example_parent_path example_Update
                "data/masterlist.yaml" "https://example.invalid/repo" "stable"
                example_state) as Hstable.
  simpl in Hmaster, Hstable.
  destruct Hmaster as (_ & _ & Hswap & _ & _ & _ & _ & Hchanged).
  destruct Hstable as (_ & _ & _ & Hkeep & _).
  assert (Hreturned :
    (UpdateMasterlist example_parent_path example_Update
       "data/masterlist.yaml" "https://example.invalid/repo" "master"
       example_state).1 = Returned true) by (vm_compute; reflexivity).
  assert (Hnot :
    (UpdateMasterlist example_parent_path example_Update
       "data/masterlist.yaml" "https://example.invalid/repo" "stable"
       example_state).1 ≠ Returned true) by (vm_compute; discriminate).
  split; split.
  - exact (Hswap Hreturned).
  - apply Hchanged; [|exact Hreturned].
    split; intros _; [vm_compute; discriminate|vm_compute; reflexivity].
  - exact (Hkeep Hnot).
  - exact Hnot.
Defined.

(** ** Merging and user metadata *)

Lemma merge_priority_unset_r p : merge_priority p PriorityUnset = p.
Proof. reflexivity. Qed.

Lemma merge_priority_unset_l p : merge_priority PriorityUnset p = p.
Proof. by destruct p. Qed.

Lemma merge_scalar_none_l {A} (o : option A) : merge_scalar None o = o.
Proof. by destruct o. Qed.

Lemma MergeMetadata_empty_r x n : MergeMetadata x (newPluginMetadata n) = x.
Proof.
  destruct x. unfold MergeMetadata, newPluginMetadata. simpl.
  f_equal; first [apply app_nil_r | apply (right_id_L ∅ (∪))].
Qed.

Lemma MergeMetadata_empty_l x : MergeMetadata (newPluginMetadata (name x)) x = x.
Proof.
  destruct x. unfold MergeMetadata, newPluginMetadata. simpl.
  f_equal; try apply (left_id_L ∅ (∪));
    auto using merge_priority_unset_l, merge_scalar_none_l.
Qed.

(** C5 (amended): the entry that carries nothing (but a name) is an
    identity of [MergeMetadata] on the right, and on the left up to the
    name: merging it into [x] leaves [x] as it is, whatever its name;
    merging [x] into it yields [x] under the name of the empty entry, which
    is [x] itself when the empty entry is the one for the plugin of [x]. *)
Theorem MergeMetadata_identity (x : PluginMetadata) :
  (∀ n, MergeMetadata x (newPluginMetadata n) = x) ∧
  MergeMetadata (newPluginMetadata (name x)) x = x ∧
  (∀ n, MergeMetadata (newPluginMetadata n) x =
        {| name := n; group := group x; enabled := enabled x;
           priority := priority x; global_priority := global_priority x;
           load_after := load_after x; requirements := requirements x;
           incompatibilities := incompatibilities x; messages := messages x;
           tags := tags x; dirty_info := dirty_info x;
           locations := locations x |}).
Proof.
  split; [|split].
  - intros n. destruct x. unfold MergeMetadata. simpl.
    f_equal; first [apply app_nil_r | apply (right_id_L ∅ (∪))].
  - destruct x as [n g e p gp la rq inc ms ts di loc].
    unfold MergeMetadata. simpl.
    rewrite !(left_id_L ∅ (∪)).
    by destruct g, e, p, gp.
  - intros n. destruct x as [n' g e p gp la rq inc ms ts di loc].
    unfold MergeMetadata. simpl.
    rewrite !(left_id_L ∅ (∪)).
    by destruct g, e, p, gp.
Qed.

(** Merging an entry into the empty entry of another name does not yield
    the entry: the result bears the name of the empty entry. *)
Lemma MergeMetadata_empty_other_name :
  name example_tagged = "Blank.esm" ∧
  name (MergeMetadata (newPluginMetadata "Other.esp") example_tagged)
    = "Other.esp" ∧
  MergeMetadata (newPluginMetadata "Other.esp") example_tagged ≠ example_tagged.
Proof.
  split; [reflexivity|]. split; [reflexivity|].
  intros Heq. apply (f_equal name) in Heq. discriminate.
Qed.

Lemma plugin_key_minimal n : plugin_key (newPluginMetadata n) = to_lower n.
Proof. reflexivity. Qed.

Lemma FindPlugin_absent l n :
  plugins_ l !! to_lower n = None → FindPlugin l n = newPluginMetadata n.
Proof. unfold FindPlugin. by intros ->. Qed.

Lemma FindPlugin_held l n p :
  plugins_ l !! to_lower n = Some p → FindPlugin l n = p.
Proof. unfold FindPlugin. by intros ->. Qed.

Lemma FindPlugin_inserted m l p :
  FindPlugin (set_plugins (<[plugin_key p := p]> m) l) (name p) = p.
Proof.
  unfold FindPlugin. simpl. fold (plugin_key p). by rewrite lookup_insert_eq.
Qed.

Section UserMetadata.

Variable on_clash : PluginMetadata -> PluginMetadata -> Outcome PluginMetadata.
Variable evaluateAll : PluginMetadata -> M PluginMetadata.

(** In [GetPluginMetadata] the identity shows as follows: a plugin the
    userlist says nothing about gets its masterlist entry, and a plugin
    the masterlist says nothing about gets its userlist entry. *)
Lemma GetPluginMetadata_one_sided plugin st :
  (plugins_ (userlist_ st) !! to_lower plugin = None →
   GetPluginMetadata evaluateAll plugin true false st
   = (Returned (FindPlugin (masterlist_ st) plugin), st)) ∧
  (∀ user, plugins_ (masterlist_ st) !! to_lower plugin = None →
   plugins_ (userlist_ st) !! to_lower plugin = Some user →
   name user = plugin →
   GetPluginMetadata evaluateAll plugin true false st = (Returned user, st)).
Proof.
  unfold GetPluginMetadata. run. split.
  - intros Hu. rewrite (FindPlugin_absent _ _ Hu).
    by rewrite MergeMetadata_empty_r.
  - intros user Hm Hu <-. rewrite (FindPlugin_absent _ _ Hm).
    rewrite (FindPlugin_held _ _ _ Hu).
    by rewrite MergeMetadata_empty_l.
Qed.

(** C6: [SetPluginUserMetadata] erases and then adds.  Whatever the
    userlist held for the name, and whatever [AddPlugin] does with a name
    it already holds, the call returns, the userlist holds the supplied
    entry for the name and its other entries as before, and
    [GetPluginUserMetadata] for the name returns the supplied entry (with
    its conditions evaluated when that is asked for). *)
Theorem SetPluginUserMetadata_replaces pluginMetadata st :
  let st' := (SetPluginUserMetadata on_clash pluginMetadata st).2 in
  SetPluginUserMetadata on_clash pluginMetadata st = (Returned tt, st') ∧
  AddPlugin on_clash pluginMetadata (ErasePlugin pluginMetadata (userlist_ st))
    = Returned (userlist_ st') ∧
  plugins_ (userlist_ st')
    = <[plugin_key pluginMetadata := pluginMetadata]> (plugins_ (userlist_ st)) ∧
  GetPluginUserMetadata evaluateAll (name pluginMetadata) false st'
    = (Returned pluginMetadata, st') ∧
  GetPluginUserMetadata evaluateAll (name pluginMetadata) true st'
    = evaluateAll pluginMetadata st'.
Proof.
  unfold SetPluginUserMetadata, GetPluginUserMetadata, AddPlugin, ErasePlugin.
  run. rewrite lookup_delete_eq. simpl.
  rewrite !FindPlugin_inserted. repeat split. apply insert_delete_eq.
Qed.

(** The representation invariant of the userlist is kept. *)
Lemma SetPluginUserMetadata_keyed pluginMetadata st :
  keyed (userlist_ st) →
  keyed (userlist_ (SetPluginUserMetadata on_clash pluginMetadata st).2).
Proof.
  unfold SetPluginUserMetadata, AddPlugin, ErasePlugin, keyed.
  run. rewrite lookup_delete_eq. simpl.
  intros Hkeyed k p. rewrite lookup_insert_Some.
  intros [[<- <-]|[_ Hp]]; [done|].
  apply lookup_delete_Some in Hp as [_ Hp]. by apply Hkeyed.
Qed.

End UserMetadata.

(** The userlist of the examples has a tag for "Blank.esp"; once the entry
    without tags is set, no tag is left. *)
Example SetPluginUserMetadata_example :
  tags (FindPlugin (userlist_ example_state) "Blank.esp") ≠ ∅ ∧
  (GetPluginUserMetadata (fun p => mret p) "blank.ESP" false
     (SetPluginUserMetadata example_on_clash example_grouped example_state).2).1
  = Returned example_grouped.
Proof. split; [vm_compute; discriminate | vm_compute; reflexivity]. Qed.

(** ** General messages *)

Section GeneralMessages.

Variable resolve : gmap string Node -> string -> Outcome bool.

Lemma evaluate_sound condition st r st' :
  cache_sound resolve st →
  evaluate resolve condition st = (r, st') →
  r = condition_value resolve (disk st) condition ∧
  cache_sound resolve st' ∧
  disk st' = disk st ∧ masterlist_ st' = masterlist_ st ∧
  userlist_ st' = userlist_ st.
Proof.
  intros Hs. destruct condition as [c|]; simpl.
  - destruct (conditions_ (gameCache_ st) !! c) as [b|] eqn:Ec.
    + intros [= <- <-]. by rewrite (Hs _ _ Ec).
    + destruct (resolve (disk st) c) as [b|e] eqn:Er.
      * intros [= <- <-]. repeat split; try done.
        intros c' b'. simpl. rewrite lookup_insert.
        case_decide as Hc; [intros [= <-]; by subst c'|apply Hs].
      * intros [= <- <-]. done.
  - run. intros [= <- <-]. done.
Qed.

Lemma erase_hidden_returned msgs st kept st' :
  cache_sound resolve st →
  erase_hidden resolve msgs st = (Returned kept, st') →
  kept = filter (visible resolve (disk st)) msgs ∧
  cache_sound resolve st' ∧
  disk st' = disk st ∧ masterlist_ st' = masterlist_ st ∧
  userlist_ st' = userlist_ st.
Proof.
  revert st kept st'. induction msgs as [|m rest IH]; intros st kept st' Hs.
  - simpl. run. intros [= <- <-]. done.
  - simpl. run.
    destruct (evaluate resolve (GetCondition m) st) as [[holds|e] st1] eqn:Ee;
      [|discriminate].
    destruct (evaluate_sound _ _ _ _ Hs Ee) as (Hv & Hs1 & Hd1 & Hm1 & Hu1).
    destruct (erase_hidden resolve rest st1) as [[rest'|e] st2] eqn:Er;
      [|discriminate].
    destruct (IH _ _ _ Hs1 Er) as (-> & Hs2 & Hd2 & Hm2 & Hu2).
    intros [= <- <-]. rewrite Hd1 in *.
    split; [|by rewrite Hm2, Hu2].
    destruct holds.
    + by rewrite filter_cons_True by (unfold visible; by rewrite <- Hv).
    + by rewrite filter_cons_False by (unfold visible; by rewrite <- Hv).
Qed.

Lemma erase_hidden_returns msgs st :
  cache_sound resolve st →
  (∀ m, m ∈ msgs → ∃ b, condition_value resolve (disk st) (GetCondition m) = Returned b) →
  ∃ st', erase_hidden resolve msgs st
         = (Returned (filter (visible resolve (disk st)) msgs), st').
Proof.
  revert st. induction msgs as [|m rest IH]; intros st Hs Hall.
  - eexists. reflexivity.
  - destruct (evaluate resolve (GetCondition m) st) as [r st1] eqn:Ee.
    destruct (evaluate_sound _ _ _ _ Hs Ee) as (Hv & Hs1 & Hd1 & _).
    destruct (Hall m) as [b Hb]; [by left|].
    rewrite Hb in Hv. subst r.
    destruct (IH st1 Hs1) as [st2 Hr].
    { intros m' Hm'. rewrite Hd1. apply Hall. by right. }
    exists st2. simpl. run. rewrite Ee, Hr, Hd1.
    destruct b.
    + by rewrite filter_cons_True by (unfold visible; by rewrite Hb).
    + by rewrite filter_cons_False by (unfold visible; by rewrite Hb).
Qed.

Lemma cache_sound_cleared st :
  cache_sound resolve (set_gameCache {| conditions_ := ∅ |} st).
Proof. intros c b. simpl. by rewrite lookup_empty. Qed.

Lemma GetGeneralMessages_run evaluateConditions st :
  GetGeneralMessages resolve evaluateConditions st =
  if evaluateConditions then
    erase_hidden resolve (Messages (masterlist_ st) ++ Messages (userlist_ st))
      (set_gameCache {| conditions_ := ∅ |} st)
  else (Returned (Messages (masterlist_ st) ++ Messages (userlist_ st)), st).
Proof.
  unfold GetGeneralMessages, ClearCachedConditions. run.
  case_bool_decide as Hu; [rewrite Hu, app_nil_r|]; by destruct evaluateConditions.
Qed.

(** C3: [GetGeneralMessages] returns the masterlist's general messages
    followed by the userlist's.  When conditions are evaluated, the
    evaluation starts from an empty condition cache, so that what the
    cache held before the call has no effect on the outcome; the call
    returns whenever every condition has a value, and a message is in
    the list returned iff it is one of these messages and its condition is
    absent or evaluates to true. *)
Theorem GetGeneralMessages_visible st :
  let all := Messages (masterlist_ st) ++ Messages (userlist_ st) in
  GetGeneralMessages resolve false st = (Returned all, st) ∧
  GetGeneralMessages resolve true st
    = erase_hidden resolve all (set_gameCache {| conditions_ := ∅ |} st) ∧
  (∀ cache, GetGeneralMessages resolve true (set_gameCache cache st)
            = GetGeneralMessages resolve true st) ∧
  (∀ kept st', GetGeneralMessages resolve true st = (Returned kept, st') →
     kept = filter (visible resolve (disk st)) all ∧
     ∀ m, m ∈ kept ↔ m ∈ all ∧ visible resolve (disk st) m) ∧
  ((∀ m, m ∈ all →
      ∃ b, condition_value resolve (disk st) (GetCondition m) = Returned b) →
   ∃ st', GetGeneralMessages resolve true st
          = (Returned (filter (visible resolve (disk st)) all), st')).
Proof.
  intros all. subst all. rewrite !GetGeneralMessages_run.
  split; [done|]. split; [done|]. split; [|split].
  - intros cache. by rewrite GetGeneralMessages_run.
  - intros kept st' Hrun.
    destruct (erase_hidden_returned _ _ _ _ (cache_sound_cleared st) Hrun)
      as (-> & _).
    split; [done|]. intros m. by rewrite list_elem_of_filter, (comm and).
  - intros Hall.
    apply (erase_hidden_returns _ (set_gameCache {| conditions_ := ∅ |} st));
      [apply cache_sound_cleared | exact Hall].
Qed.

End GeneralMessages.

(** The cache holds a stale result for the second masterlist message; it
    is cleared, the condition is resolved anew and the message is left
    out.  The file that the userlist message asks for exists. *)
Lemma GetGeneralMessages_visible_witness :
  (GetGeneralMessages example_resolve true example_state).1
  = Returned [example_message "always" None;
              example_message "if present" (Some "file(Blank.esm)")].
Proof.
  destruct (proj2 (proj2 (proj2 (proj2
              (GetGeneralMessages_visible example_resolve example_state)))))
    as [st' ->].
  - intros m Hm. vm_compute in Hm.
    repeat (apply elem_of_cons in Hm as [->|Hm]; [eexists; vm_compute; reflexivity|]).
    by apply elem_of_nil in Hm.
  - vm_compute. reflexivity.
Defined.

(** ** The minimal list *)

Lemma minimalPlugin_fields plugin :
  minimalPlugin plugin =
  {| name := name plugin; group := None; enabled := None;
     priority := PriorityUnset; global_priority := PriorityUnset;
     load_after := ∅; requirements := ∅; incompatibilities := ∅;
     messages := []; tags := tags plugin; dirty_info := dirty_info plugin;
     locations := ∅ |}.
Proof. reflexivity. Qed.

Section MinimalList.

Variable parent_path : string -> string.
Variable on_clash : PluginMetadata -> PluginMetadata -> Outcome PluginMetadata.

(** The loop of [WriteMinimalList] over entries with distinct keys, none
    of them in the list built so far, never meets a name twice. *)
Lemma add_minimal_returns (l : list (string * PluginMetadata)) acc :
  NoDup l.*1 →
  (∀ k p, (k, p) ∈ l → k = plugin_key p) →
  (∀ k, k ∈ l.*1 → plugins_ acc !! k = None) →
  add_minimal on_clash l.*2 acc =
  Returned
    (set_plugins (list_to_map (prod_map id minimalPlugin <$> l) ∪ plugins_ acc) acc).
Proof.
  revert acc. induction l as [|[k p] rest IH]; intros acc Hnd Hkey Hfresh.
  - simpl. rewrite (left_id_L ∅ (∪)). by destruct acc.
  - simpl in *. apply NoDup_cons in Hnd as [Hk Hnd].
    assert (Hkp : k = plugin_key p) by (apply Hkey; left).
    unfold AddPlugin.
    replace (plugin_key (minimalPlugin p)) with k by done.
    rewrite (Hfresh k) by left. simpl.
    rewrite IH; [|done|intros; apply Hkey; by right|].
    + unfold set_plugins. simpl. f_equal. f_equal.
      rewrite <- insert_union_l. symmetry. apply insert_union_r.
      apply not_elem_of_list_to_map.
      by rewrite <- list_fmap_compose.
    + intros k' Hk'. simpl. rewrite lookup_insert_ne by (intros ->; done).
      apply Hfresh. by right.
Qed.

Lemma add_minimal_Plugins masterlist :
  keyed masterlist →
  add_minimal on_clash (Plugins masterlist) newMetadataList =
  Returned (set_plugins (minimalPlugin <$> plugins_ masterlist) newMetadataList).
Proof.
  intros Hkeyed. unfold Plugins. rewrite add_minimal_returns.
  - simpl. rewrite (right_id_L ∅ (∪)), list_to_map_fmap.
    by rewrite list_to_map_to_list.
  - apply NoDup_fst_map_to_list.
  - intros k p Hin. apply Hkeyed. by apply elem_of_map_to_list.
  - intros. apply lookup_empty.
Qed.

(** What [WriteMinimalList] does when the output can be written: it
    returns, and the output file then holds the list built by its loop, an
    entry for every masterlist plugin. *)
Lemma WriteMinimalList_run outputFile overwrite st :
  keyed (masterlist_ st) →
  is_directory (disk st) (parent_path outputFile) = true →
  exists_ (disk st) outputFile && negb overwrite = false →
  is_directory (disk st) outputFile = false →
  WriteMinimalList parent_path on_clash outputFile overwrite st
  = (Returned tt,
     set_disk
       (<[outputFile :=
            RegularFile
              (WellFormed
                 (set_plugins (minimalPlugin <$> plugins_ (masterlist_ st))
                    newMetadataList))]> (disk st)) st).
Proof.
  intros Hkeyed Hparent Hclobber Hdir.
  assert (Hexists : exists_ (disk st) (parent_path outputFile) = true).
  { unfold is_directory in Hparent. apply bool_decide_eq_true in Hparent.
    unfold exists_. apply bool_decide_eq_true. by rewrite Hparent. }
  unfold WriteMinimalList. run. rewrite Hexists, Hclobber. simpl.
  rewrite (add_minimal_Plugins _ Hkeyed). simpl.
  unfold save, Save, writable. by rewrite Hparent, Hdir.
Qed.


End MinimalList.

Lemma keyed_example_masterlist : keyed example_masterlist.
Proof.
  intros k p. unfold example_masterlist. simpl.
  rewrite lookup_insert_Some, lookup_singleton_Some.
  intros [[<- <-]|[_ [<- <-]]]; reflexivity.
Qed.



(** An output file below a regular file cannot be written: the parent
    exists, so the path passes the test of [WriteMinimalList], and [Save]
    throws [FileAccessError]; the files stay as they are. *)
Example WriteMinimalList_unwritable :
  WriteMinimalList example_parent_path example_on_clash
    "data/masterlist.yaml/out.yaml" true example_state
  = (Thrown FileAccessError, example_state).
Proof. vm_compute. reflexivity. Qed.

(** ** The sorter *)

Lemma path_weaken g g' a b :
  (∀ e, e ∈ g → e ∈ g') → path g a b → path g' a b.
Proof.
  intros Hincl Hp. induction Hp as [e He|e c He _ IH].
  - apply path_edge. auto.
  - eapply path_step; eauto.
Qed.

Lemma reaches_path fuel g a b : reaches fuel g a b = true → path g a b.
Proof.
  revert a. induction fuel as [|fuel IH]; intros a; simpl; [discriminate|].
  rewrite existsb_exists. intros (e & Hin & He).
  apply list_elem_of_In in Hin.
  apply andb_true_iff in He as [Hfrom Hto].
  apply String.eqb_eq in Hfrom as <-.
  apply orb_true_iff in Hto as [Hto|Hto].
  - apply String.eqb_eq in Hto as <-. by apply path_edge.
  - eapply path_step; eauto.
Qed.

Lemma path_walk g a b : path g a b → ∃ es, walk g a es b.
Proof.
  induction 1 as [e He|e c He _ [es IH]].
  - exists [e]. by constructor.
  - exists (e :: es). by constructor.
Qed.

Lemma walk_incl g a es b e : walk g a es b → e ∈ es → e ∈ g.
Proof.
  induction 1 as [e' He'|e' es c He' _ IH]; intros Hin.
  - by apply list_elem_of_singleton in Hin as ->.
  - apply elem_of_cons in Hin as [->|Hin]; auto.
Qed.

Lemma walk_suffix g a l1 e l2 b :
  walk g a (l1 ++ e :: l2) b → walk g (edge_from e) (e :: l2) b.
Proof.
  revert a. induction l1 as [|x l1 IH]; intros a Hw; simpl in Hw.
  - inversion Hw; subst; by constructor.
  - inversion Hw as [|? ? ? ? Hrest]; subst.
    + by destruct l1.
    + by eapply IH.
Qed.

Lemma walk_NoDup g a es b : walk g a es b → ∃ es', walk g a es' b ∧ NoDup es'.
Proof.
  induction 1 as [e He|e es c He Hw (es' & Hw' & Hnd)].
  - exists [e]. split; [by constructor|]. apply NoDup_singleton.
  - destruct (decide (e ∈ es')) as [Hin|Hin].
    + apply list_elem_of_split in Hin as (l1 & l2 & ->).
      exists (e :: l2). split; [by eapply walk_suffix|].
      by apply NoDup_app in Hnd as (_ & _ & Hnd).
    + exists (e :: es'). split; [by constructor|]. by apply NoDup_cons.
Qed.

Lemma walk_reaches g a es b fuel :
  walk g a es b → (length es ≤ fuel)%nat → reaches fuel g a b = true.
Proof.
  intros Hw. revert fuel.
  induction Hw as [e He|e es c He _ IH]; intros [|fuel] Hlen; simpl in *;
    try lia; apply existsb_exists; exists e;
    (split; [by apply list_elem_of_In|]); rewrite String.eqb_refl; simpl.
  - by rewrite String.eqb_refl.
  - rewrite IH by lia. apply orb_true_r.
Qed.

(** The bounded search finds every path: a path can be cut down to one
    that repeats no edge. *)
Lemma ordered_path g a b : ordered g a b = true ↔ path g a b.
Proof.
  split; [apply reaches_path|].
  intros (es & Hw)%path_walk. apply walk_NoDup in Hw as (es' & Hw & Hnd).
  apply (walk_reaches _ _ es'); [done|].
  apply submseteq_length, NoDup_submseteq; [done|].
  intros e. by apply walk_incl with (1 := Hw).
Qed.

Lemma ordered_same g1 g2 a b :
  same_edges g1 g2 → ordered g1 a b = ordered g2 a b.
Proof.
  intros Hsame. apply eq_true_iff_eq. rewrite !ordered_path.
  split; apply path_weaken; intros e; apply Hsame.
Qed.

Lemma pairs_cover {A} (l : list A) x y :
  x ∈ l → y ∈ l → x ≠ y → (x, y) ∈ pairs l ∨ (y, x) ∈ pairs l.
Proof.
  induction l as [|z rest IH]; intros Hx Hy Hne.
  - by apply elem_of_nil in Hx.
  - simpl. rewrite !elem_of_app, !list_elem_of_fmap.
    apply elem_of_cons in Hx as [->|Hx]; apply elem_of_cons in Hy as [->|Hy].
    + done.
    + left. left. eauto.
    + right. left. eauto.
    + destruct (IH Hx Hy Hne); [left|right]; by right.
Qed.

Lemma pairs_elem {A} (l : list A) x y : (x, y) ∈ pairs l → x ∈ l ∧ y ∈ l.
Proof.
  induction l as [|z rest IH]; simpl; [by intros ?%elem_of_nil|].
  intros [Hin|Hin]%elem_of_app.
  - apply list_elem_of_fmap in Hin as (y' & [= -> ->] & Hy).
    split; [by left|by right].
  - destruct (IH Hin). split; by right.
Qed.

Lemma pairs_distinct {A B} (f : A → B) (l : list A) x y :
  NoDup (f <$> l) → (x, y) ∈ pairs l → f x ≠ f y.
Proof.
  induction l as [|z rest IH]; simpl; [by intros _ ?%elem_of_nil|].
  intros [Hz Hnd]%NoDup_cons [Hin|Hin]%elem_of_app; [|by apply IH].
  apply list_elem_of_fmap in Hin as (y' & [= -> ->] & Hy).
  intros Heq. apply Hz. rewrite Heq. by apply list_elem_of_fmap_2.
Qed.

(** A candidate pair is ordered by the graph of a sort, by a path of
    rules 1 to 5 or by its tie-break edge. *)
Lemma tie_break_connects inp p q :
  (p, q) ∈ pairs (installed inp) →
  path (sort_graph inp) (view_name p) (view_name q) ∨
  path (sort_graph inp) (view_name q) (view_name p).
Proof.
  intros Hin. unfold sort_graph.
  destruct (ordered (ruled_edges inp) (view_name p) (view_name q)) eqn:Hpq.
  { left. apply ordered_path in Hpq. eapply path_weaken; [|exact Hpq].
    intros e He. apply elem_of_app. by left. }
  destruct (ordered (ruled_edges inp) (view_name q) (view_name p)) eqn:Hqp.
  { right. apply ordered_path in Hqp. eapply path_weaken; [|exact Hqp].
    intros e He. apply elem_of_app. by left. }
  assert (Hedge : ∀ e, e ∈ tie_break inp (ruled_edges inp) (p, q) →
                       e ∈ ruled_edges inp ++ tie_break_edges inp (ruled_edges inp)).
  { intros e He. apply elem_of_app. right. unfold tie_break_edges.
    apply list_elem_of_bind. by exists (p, q). }
  unfold tie_break in Hedge. simpl in Hedge. rewrite Hpq, Hqp in Hedge.
  simpl in Hedge. destruct (loads_first inp p q).
  - left. apply (path_edge _ (edge p q TieBreakRule)), Hedge. by left.
  - right. apply (path_edge _ (edge q p TieBreakRule)), Hedge. by left.
Qed.

(** Every two installed plugins are ordered by the graph of a sort. *)
Lemma sort_graph_connects inp a b :
  a ∈ view_name <$> installed inp → b ∈ view_name <$> installed inp → a ≠ b →
  path (sort_graph inp) a b ∨ path (sort_graph inp) b a.
Proof.
  rewrite !list_elem_of_fmap. intros (p & -> & Hp) (q & -> & Hq) Hne.
  assert (Hpq : p ≠ q) by congruence.
  destruct (pairs_cover _ _ _ Hp Hq Hpq) as [Hin|Hin].
  - by apply tie_break_connects.
  - destruct (tie_break_connects inp q p Hin); tauto.
Qed.

Lemma precedes_trans order a b c :
  NoDup order → precedes order a b → precedes order b c → precedes order a c.
Proof.
  intros Hnd (i & j & Hi & Hj & Hij) (j' & k & Hj' & Hk & Hjk).
  assert (j = j') as <- by (eapply NoDup_lookup; eauto).
  exists i, k. repeat split; [done..|lia].
Qed.

Lemma precedes_irrefl order a : NoDup order → ¬ precedes order a a.
Proof.
  intros Hnd (i & j & Hi & Hj & Hij).
  assert (i = j) by (eapply NoDup_lookup; eauto). lia.
Qed.

Lemma precedes_path g order a b :
  NoDup order →
  (∀ e, e ∈ g → precedes order (edge_from e) (edge_to e)) →
  path g a b → precedes order a b.
Proof.
  intros Hnd Hresp Hp. induction Hp as [e He|e c He _ IH]; [by apply Hresp|].
  eapply precedes_trans; eauto.
Qed.

(** Two orders of the same distinct elements that agree on which of two
    elements comes first are the same order. *)
Lemma order_unique (o1 o2 : list string) :
  NoDup o1 → o1 ≡ₚ o2 →
  (∀ a b, precedes o1 a b → precedes o2 a b) → o1 = o2.
Proof.
  revert o2. induction o1 as [|h t IH]; intros o2 Hnd Hperm Hsame.
  - by apply Permutation_nil_l.
  - assert (Hnd2 : NoDup o2) by (by rewrite <- Hperm).
    destruct o2 as [|x t2]; [by apply Permutation_nil_r in Hperm|].
    apply NoDup_cons in Hnd as [Hh Hnd].
    destruct (decide (x = h)) as [->|Hne].
    + f_equal. apply IH; [done|by eapply Permutation_cons_inv|].
      intros a b (i & j & Hi & Hj & Hij).
      destruct (Hsame a b) as (i' & j' & Hi' & Hj' & Hij').
      { exists (S i), (S j). repeat split; [done..|lia]. }
      destruct i' as [|i'].
      { injection Hi' as ->. destruct Hh. eapply list_elem_of_lookup_2, Hi. }
      destruct j' as [|j']; [lia|].
      exists i', j'. repeat split; [done..|lia].
    + assert (Hx : x ∈ t).
      { assert (Hin : x ∈ h :: t) by (rewrite Hperm; left).
        apply elem_of_cons in Hin as [?|?]; done. }
      apply list_elem_of_lookup_1 in Hx as [k Hk].
      destruct (Hsame h x) as (i & j & Hi & Hj & Hij).
      { exists 0, (S k). repeat split; [done..|lia]. }
      assert (j = 0) by (eapply (NoDup_lookup (x :: t2)); eauto). lia.
Qed.

Lemma distinct_names_NoDup inp :
  distinct_names inp → NoDup (view_name <$> installed inp).
Proof.
  unfold distinct_names. rewrite list_fmap_compose. apply NoDup_fmap_1.
Qed.

(** Two sorts of one input have the same outcome: the graph orders every
    two plugins, so it leaves room for one order at most. *)
Lemma sort_result_unique inp r1 r2 :
  distinct_names inp →
  sort_result inp r1 → sort_result inp r2 → r1 = r2.
Proof.
  intros Hnames%distinct_names_NoDup H1 H2.
  destruct H1 as [o1 Hperm1 Hresp1|v1 Hcycle1];
    destruct H2 as [o2 Hperm2 Hresp2|v2 Hcycle2].
  - assert (Hnd1 : NoDup o1) by (by rewrite Hperm1).
    assert (Hnd2 : NoDup o2) by (by rewrite Hperm2).
    f_equal. apply order_unique; [done|by rewrite Hperm1, Hperm2|].
    intros a b Hab.
    assert (Ha : a ∈ view_name <$> installed inp).
    { rewrite <- Hperm1. destruct Hab as (i & _ & Hi & _).
      eapply list_elem_of_lookup_2, Hi. }
    assert (Hb : b ∈ view_name <$> installed inp).
    { rewrite <- Hperm1. destruct Hab as (_ & j & _ & Hj & _).
      eapply list_elem_of_lookup_2, Hj. }
    assert (Hne : a ≠ b).
    { intros ->. by apply (precedes_irrefl o1 b). }
    destruct (sort_graph_connects inp a b Ha Hb Hne) as [Hp|Hp].
    + by apply (precedes_path (sort_graph inp)).
    + exfalso. apply (precedes_irrefl o1 a Hnd1).
      apply (precedes_trans o1 a b a Hnd1 Hab).
      by apply (precedes_path (sort_graph inp)).
  - exfalso. assert (Hnd1 : NoDup o1) by (by rewrite Hperm1).
    apply (precedes_irrefl o1 v2 Hnd1).
    by apply (precedes_path (sort_graph inp)).
  - exfalso. assert (Hnd2 : NoDup o2) by (by rewrite Hperm2).
    apply (precedes_irrefl o2 v1 Hnd2).
    by apply (precedes_path (sort_graph inp)).
  - done.
Qed.

(** *** The graph does not depend on how the input is listed *)

Lemma bind_same {A B} (f1 f2 : A → list B) (l1 l2 : list A) :
  (∀ x, x ∈ l1 ↔ x ∈ l2) →
  (∀ x y, x ∈ l1 → y ∈ f1 x ↔ y ∈ f2 x) →
  ∀ y, y ∈ l1 ≫= f1 ↔ y ∈ l2 ≫= f2.
Proof.
  intros Hl Hf y. rewrite !list_elem_of_bind.
  split; intros (x & Hy & Hx); exists x.
  - split; [by apply Hf|by apply Hl].
  - apply Hl in Hx. split; [by apply Hf|done].
Qed.

Lemma NoDup_fmap_eq {A B} (f : A → B) (l : list A) x y :
  NoDup (f <$> l) → x ∈ l → y ∈ l → f x = f y → x = y.
Proof.
  induction l as [|z rest IH]; simpl; [by intros _ ?%elem_of_nil|].
  intros [Hz Hnd]%NoDup_cons [->|Hx]%elem_of_cons [->|Hy]%elem_of_cons Heq.
  - done.
  - destruct Hz. rewrite Heq. by apply list_elem_of_fmap_2.
  - destruct Hz. rewrite <- Heq. by apply list_elem_of_fmap_2.
  - by apply IH.
Qed.

(** Among plugins of distinct names a name resolves to the one plugin that
    bears it, wherever it stands in the list. *)
Lemma installed_as_Some inp n v :
  distinct_names inp →
  installed_as inp n = Some v ↔
  v ∈ installed inp ∧ to_lower (view_name v) = to_lower n.
Proof.
  intros Hnames. unfold installed_as. split.
  - intros Hv%head_Some_elem_of. by apply list_elem_of_filter in Hv as [? ?].
  - intros [Hin Heq].
    destruct (head (filter (λ v, to_lower (view_name v) = to_lower n)
                      (installed inp))) as [w|] eqn:Hw.
    + f_equal. apply head_Some_elem_of, list_elem_of_filter in Hw as [Hw Hwin].
      apply (NoDup_fmap_eq (to_lower ∘ view_name) (installed inp));
        [done..|simpl; congruence].
    + apply head_None in Hw.
      assert (Hv : v ∈ filter (λ v, to_lower (view_name v) = to_lower n)
                         (installed inp)) by (by apply list_elem_of_filter).
      rewrite Hw in Hv. by apply elem_of_nil in Hv.
Qed.

Lemma String_leb_antisym a b : a ≠ b → String.leb b a = negb (String.leb a b).
Proof.
  intros Hne. unfold String.leb. rewrite (String.compare_antisym b a).
  destruct (String.compare a b) eqn:Hc; simpl; [|done..].
  by apply String.compare_eq_iff in Hc.
Qed.

(** The comparison of rule 6 decides between two plugins of different
    names, whichever is asked first. *)
Lemma loads_first_antisym inp p q :
  to_lower (view_name p) ≠ to_lower (view_name q) →
  loads_first inp q p = negb (loads_first inp p q).
Proof.
  intros Hne. unfold loads_first. cbv zeta.
  rewrite (String_leb_antisym _ _ Hne).
  generalize (String.leb (to_lower (view_name p)) (to_lower (view_name q))).
  generalize (priority_value (global_priority (merged inp (view_name p)))).
  generalize (priority_value (global_priority (merged inp (view_name q)))).
  generalize (priority_value (priority (merged inp (view_name p)))).
  generalize (priority_value (priority (merged inp (view_name q)))).
  generalize (load_order_index inp (view_name p)).
  generalize (load_order_index inp (view_name q)).
  intros oj oi pq pp gq gp by_name.
  destruct (Z.ltb_spec gq gp); destruct (Z.ltb_spec gp gq);
    simpl; try done; try lia.
  destruct (Z.ltb_spec pq pp); destruct (Z.ltb_spec pp pq);
    simpl; try done; try lia.
  destruct oi as [i|]; destruct oj as [j|]; try done.
  destruct (Nat.ltb_spec i j); destruct (Nat.ltb_spec j i);
    simpl; try done; lia.
Qed.

Lemma tie_break_swap inp g p q :
  to_lower (view_name p) ≠ to_lower (view_name q) →
  tie_break inp g (q, p) = tie_break inp g (p, q).
Proof.
  intros Hne. unfold tie_break. simpl. rewrite orb_comm.
  destruct (_ || _); [done|].
  rewrite (loads_first_antisym inp p q Hne).
  by destruct (loads_first inp p q).
Qed.

Lemma same_input_sym inp1 inp2 : same_input inp1 inp2 → same_input inp2 inp1.
Proof.
  intros (Hperm & Hmerged & Hgroups & Horder). repeat split; try done.
  - intros He. by apply Hgroups.
  - intros He. by apply Hgroups.
Qed.

Lemma same_input_distinct_names inp1 inp2 :
  same_input inp1 inp2 → distinct_names inp1 → distinct_names inp2.
Proof. intros (Hperm & _). unfold distinct_names. by rewrite Hperm. Qed.

Section SameInput.

Variables inp1 inp2 : SortInput.
Hypothesis Hnames : distinct_names inp1.
Hypothesis Hsame : same_input inp1 inp2.

Lemma same_installed v : v ∈ installed inp1 ↔ v ∈ installed inp2.
Proof. destruct Hsame as (Hperm & _). by rewrite Hperm. Qed.

Lemma same_merged n : merged inp1 n = merged inp2 n.
Proof. by destruct Hsame as (_ & Hmerged & _). Qed.

Lemma same_installed_as n : installed_as inp1 n = installed_as inp2 n.
Proof.
  apply option_eq. intros v.
  rewrite !installed_as_Some
    by eauto using same_input_distinct_names.
  by rewrite same_installed.
Qed.

Lemma same_group_precedes a b : group_precedes inp1 a b = group_precedes inp2 a b.
Proof.
  unfold group_precedes. apply ordered_same. by destruct Hsame as (_ & _ & ? & _).
Qed.

Lemma same_loads_first p q : loads_first inp1 p q = loads_first inp2 p q.
Proof.
  unfold loads_first, load_order_index. cbv zeta.
  destruct Hsame as (_ & _ & _ & ->). by rewrite !same_merged.
Qed.

Lemma master_edges_same : same_edges (master_edges inp1) (master_edges inp2).
Proof.
  intros e0. unfold master_edges. apply bind_same; [apply same_installed|].
  intros m e _. apply bind_same; [apply same_installed|done].
Qed.

Lemma header_edges_same : same_edges (header_edges inp1) (header_edges inp2).
Proof.
  intros e0. unfold header_edges. apply bind_same; [apply same_installed|].
  intros p e _. apply bind_same; [done|].
  intros m e' _. by rewrite same_installed_as.
Qed.

Lemma reference_edges_same rule refs :
  same_edges (reference_edges rule refs inp1) (reference_edges rule refs inp2).
Proof.
  intros e0. unfold reference_edges. apply bind_same; [apply same_installed|].
  intros p e _. rewrite same_merged. apply bind_same; [done|].
  intros r e' _. by rewrite same_installed_as.
Qed.

Lemma hard_edges_same : same_edges (hard_edges inp1) (hard_edges inp2).
Proof.
  intros e. unfold hard_edges. rewrite !elem_of_app.
  by rewrite (master_edges_same e), (header_edges_same e),
    (reference_edges_same LoadAfterRule load_after e),
    (reference_edges_same RequirementRule requirements e).
Qed.

Lemma group_candidates_same pq :
  pq ∈ group_candidates inp1 ↔ pq ∈ group_candidates inp2.
Proof.
  unfold group_candidates. apply bind_same; [apply same_installed|].
  intros p pq' _. apply bind_same; [apply same_installed|].
  intros q pq'' _. rewrite !same_merged.
  destruct (group (merged inp2 (view_name p))) as [a|]; [|done].
  destruct (group (merged inp2 (view_name q))) as [b|]; [|done].
  by rewrite same_group_precedes.
Qed.

Lemma ruled_edges_same : same_edges (ruled_edges inp1) (ruled_edges inp2).
Proof.
  intros e. unfold ruled_edges, group_edges. rewrite !elem_of_app.
  rewrite (hard_edges_same e).
  apply or_iff_compat_l.
  apply bind_same; [apply group_candidates_same|].
  intros pq e' _. unfold group_edge.
  by rewrite (ordered_same _ _ _ _ hard_edges_same).
Qed.

Lemma tie_break_same g1 g2 pq :
  same_edges g1 g2 → tie_break inp1 g1 pq = tie_break inp2 g2 pq.
Proof.
  intros Hg. unfold tie_break.
  by rewrite !(ordered_same g1 g2) by done; rewrite same_loads_first.
Qed.

End SameInput.

(** A tie-break edge of an input is one of an identical input: the pair
    it comes from is a candidate there, one way round or the other, and
    the comparison gives the same edge either way. *)
Lemma tie_break_edges_incl inp1 inp2 e :
  distinct_names inp1 → same_input inp1 inp2 →
  e ∈ tie_break_edges inp1 (ruled_edges inp1) →
  e ∈ tie_break_edges inp2 (ruled_edges inp2).
Proof.
  intros Hnames Hsame. unfold tie_break_edges. rewrite !list_elem_of_bind.
  intros ([p q] & He & Hin).
  rewrite (tie_break_same inp1 inp2 Hsame _ (ruled_edges inp2)) in He
    by (by apply ruled_edges_same).
  assert (Hne : to_lower (view_name p) ≠ to_lower (view_name q))
    by (by apply (pairs_distinct (to_lower ∘ view_name) (installed inp1))).
  destruct (pairs_elem _ _ _ Hin) as [Hp Hq].
  apply (same_installed inp1 inp2 Hsame) in Hp, Hq.
  destruct (pairs_cover (installed inp2) p q Hp Hq) as [Hpq|Hqp];
    [congruence| |].
  - by exists (p, q).
  - exists (q, p). by rewrite tie_break_swap.
Qed.

(** Identical inputs have the same graph. *)
Lemma sort_graph_same inp1 inp2 :
  distinct_names inp1 → same_input inp1 inp2 →
  same_edges (sort_graph inp1) (sort_graph inp2).
Proof.
  intros Hnames Hsame e. unfold sort_graph. rewrite !elem_of_app.
  rewrite (ruled_edges_same inp1 inp2 Hnames Hsame e).
  split; (intros [He|He]; [by left|right]).
  - by apply (tie_break_edges_incl inp1 inp2).
  - apply (tie_break_edges_incl inp2 inp1);
      eauto using same_input_sym, same_input_distinct_names.
Qed.

Lemma sort_result_same inp1 inp2 r :
  distinct_names inp1 → same_input inp1 inp2 →
  sort_result inp2 r → sort_result inp1 r.
Proof.
  intros Hnames Hsame [order Hperm Hresp|v Hcycle].
  - apply sort_returns.
    + rewrite Hperm. destruct Hsame as (Hinstalled & _). by rewrite Hinstalled.
    + intros e He. apply Hresp. by apply (sort_graph_same inp1 inp2).
  - apply (sort_throws _ v). eapply path_weaken; [|exact Hcycle].
    intros e. by apply (sort_graph_same inp1 inp2).
Qed.


Lemma index_of_lookup a l i : index_of a l = Some i → l !! i = Some a.
Proof.
  revert i. induction l as [|x rest IH]; intros i; simpl; [discriminate|].
  destruct (String.eqb x a) eqn:Hx.
  - intros [= <-]. apply String.eqb_eq in Hx as ->. done.
  - destruct (index_of a rest) as [k|]; simpl; [|discriminate].
    intros [= <-]. by apply IH.
Qed.

Lemma precedesb_precedes order a b :
  precedesb order a b = true → precedes order a b.
Proof.
  unfold precedesb, precedes.
  destruct (index_of a order) as [i|] eqn:Hi; [|discriminate].
  destruct (index_of b order) as [j|] eqn:Hj; [|discriminate].
  intros Hij%Nat.ltb_lt. exists i, j. eauto using index_of_lookup.
Qed.

Lemma respectsb_respects g order :
  respectsb g order = true →
  ∀ e, e ∈ g → precedes order (edge_from e) (edge_to e).
Proof.
  unfold respectsb. rewrite forallb_forall. intros Hall e He.
  apply precedesb_precedes, Hall. by apply list_elem_of_In.
Qed.

(** A computed check that an order is a result of the sort. *)
Lemma sort_result_checked inp order :
  bool_decide (order ≡ₚ view_name <$> installed inp) = true →
  respectsb (sort_graph inp) order = true →
  sort_result inp (Returned order).
Proof.
  intros Hperm%bool_decide_eq_true Hresp.
  apply sort_returns; [done|by apply respectsb_respects].
Qed.

(** Scenario A: the master first, then the two others by name. *)
Example scenario_A_sorted :
  sort_result scenario_A (Returned ["Base.esm"; "ModA.esp"; "ModB.esp"]).
Proof. apply sort_result_checked; vm_compute; reflexivity. Qed.

(** Scenario C: the two [load_after] references close a cycle. *)
Example scenario_C_cyclic :
  sort_result scenario_C (Thrown CyclicInteractionError).
Proof.
  apply (sort_throws _ "ModA.esp").
  apply (reaches_path (length (sort_graph scenario_C))).
  vm_compute. reflexivity.
Qed.

(** Scenario F: the plugin of the earlier group first. *)
Example scenario_F_sorted :
  sort_result scenario_F (Returned ["Q.esp"; "P.esp"]).
Proof. apply sort_result_checked; vm_compute; reflexivity. Qed.


(** ** The existence of an order *)

Lemma edge_within inp p q r :
  p ∈ installed inp → q ∈ installed inp →
  edge_from (edge p q r) ∈ names inp ∧ edge_to (edge p q r) ∈ names inp.
Proof. intros Hp Hq. unfold names. simpl. split; by apply list_elem_of_fmap_2. Qed.

Lemma installed_as_elem inp n v : installed_as inp n = Some v → v ∈ installed inp.
Proof.
  unfold installed_as. intros Hv%head_Some_elem_of.
  by apply list_elem_of_filter in Hv as [_ Hv].
Qed.

Lemma master_edges_within inp : within inp (master_edges inp).
Proof.
  intros e. unfold master_edges.
  intros (m & He & Hm)%list_elem_of_bind.
  apply list_elem_of_bind in He as (n & He & Hn).
  destruct (_ && _); [|by apply elem_of_nil in He].
  apply list_elem_of_singleton in He as ->. by apply edge_within.
Qed.

Lemma header_edges_within inp : within inp (header_edges inp).
Proof.
  intros e. unfold header_edges.
  intros (p & He & Hp)%list_elem_of_bind.
  apply list_elem_of_bind in He as (m & He & Hm).
  destruct (installed_as inp m) as [v|] eqn:Hv; [|by apply elem_of_nil in He].
  apply list_elem_of_singleton in He as ->.
  apply edge_within; [by eapply installed_as_elem|done].
Qed.

Lemma reference_edges_within rule refs inp :
  within inp (reference_edges rule refs inp).
Proof.
  intros e. unfold reference_edges.
  intros (p & He & Hp)%list_elem_of_bind.
  apply list_elem_of_bind in He as (r & He & Hr).
  destruct (installed_as inp (file_name r)) as [v|] eqn:Hv;
    [|by apply elem_of_nil in He].
  apply list_elem_of_singleton in He as ->.
  apply edge_within; [by eapply installed_as_elem|done].
Qed.

Lemma within_app inp g1 g2 : within inp g1 → within inp g2 → within inp (g1 ++ g2).
Proof. intros H1 H2 e [?|?]%elem_of_app; auto. Qed.

Lemma within_cons inp p q r g :
  p ∈ installed inp → q ∈ installed inp → within inp g →
  within inp (edge p q r :: g).
Proof.
  intros Hp Hq Hg e [->|He]%elem_of_cons; [by apply edge_within|by apply Hg].
Qed.

Lemma group_candidates_elem inp p q :
  (p, q) ∈ group_candidates inp → p ∈ installed inp ∧ q ∈ installed inp.
Proof.
  unfold group_candidates. intros (p' & He & Hp)%list_elem_of_bind.
  apply list_elem_of_bind in He as (q' & He & Hq).
  destruct (group (merged inp (view_name p'))); [|by apply elem_of_nil in He].
  destruct (group (merged inp (view_name q'))); [|by apply elem_of_nil in He].
  destruct (group_precedes inp _ _); [|by apply elem_of_nil in He].
  by apply list_elem_of_singleton in He as [= -> ->].
Qed.

(** The edges of every rule join installed plugins. *)
Lemma sort_graph_within inp : within inp (sort_graph inp).
Proof.
  assert (Hhard : within inp (hard_edges inp)).
  { unfold hard_edges.
    repeat apply within_app;
      auto using master_edges_within, header_edges_within, reference_edges_within. }
  unfold sort_graph, ruled_edges.
  apply within_app; [apply within_app; [done|]|].
  - intros e. unfold group_edges.
    intros ([p q] & He & [Hp Hq]%group_candidates_elem)%list_elem_of_bind.
    unfold group_edge in He. destruct (_ || _); [by apply elem_of_nil in He|].
    apply list_elem_of_singleton in He as ->. by apply edge_within.
  - intros e. unfold tie_break_edges.
    intros ([p q] & He & [Hp Hq]%pairs_elem)%list_elem_of_bind.
    unfold tie_break in He. destruct (_ || _); [by apply elem_of_nil in He|].
    simpl in He. destruct (loads_first inp p q);
      apply list_elem_of_singleton in He as ->; by apply edge_within.
Qed.

Section LineUp.

Variable g : list Edge.

Lemma place_perm x l : place g x l ≡ₚ x :: l.
Proof.
  induction l as [|y rest IH]; simpl; [done|].
  destruct (ordered g x y); [done|]. rewrite IH. apply Permutation_swap.
Qed.

Lemma line_up_perm l : line_up g l ≡ₚ l.
Proof.
  induction l as [|x rest IH]; simpl; [done|]. by rewrite place_perm, IH.
Qed.

Lemma path_trans a b c : path g a b → path g b c → path g a c.
Proof.
  intros Hab Hbc. induction Hab as [e He|e c' He _ IH].
  - by eapply path_step.
  - eapply path_step; eauto.
Qed.

Lemma place_sorted x l :
  (∀ y, y ∈ l → path g x y ∨ path g y x) →
  StronglySorted (path g) l → StronglySorted (path g) (place g x l).
Proof.
  induction l as [|y rest IH]; intros Hconn Hsorted; simpl.
  - repeat constructor.
  - apply StronglySorted_cons in Hsorted as [Hy Hrest].
    destruct (ordered g x y) eqn:Hxy.
    + apply ordered_path in Hxy.
      apply StronglySorted_cons. split; [|by apply StronglySorted_cons].
      constructor; [done|].
      eapply Forall_impl; [exact Hy|]. intros z Hyz. by eapply path_trans.
    + assert (Hyx : path g y x).
      { destruct (Hconn y) as [H|H]; [by left| |done].
        apply ordered_path in H. congruence. }
      apply StronglySorted_cons. split.
      * rewrite place_perm. by constructor.
      * apply IH; [|done]. intros z Hz. apply Hconn. by right.
Qed.

Lemma line_up_sorted l :
  NoDup l →
  (∀ a b, a ∈ l → b ∈ l → a ≠ b → path g a b ∨ path g b a) →
  StronglySorted (path g) (line_up g l).
Proof.
  induction l as [|x rest IH]; intros Hnd Hconn; simpl; [constructor|].
  apply NoDup_cons in Hnd as [Hx Hnd].
  apply place_sorted.
  - intros y Hy. rewrite line_up_perm in Hy.
    apply Hconn; [by left|by right|]. by intros ->.
  - apply IH; [done|]. intros a b Ha Hb. apply Hconn; by right.
Qed.

Lemma sorted_lookup l i j a b :
  StronglySorted (path g) l →
  l !! i = Some a → l !! j = Some b → i < j → path g a b.
Proof.
  intros Hsorted. revert i j.
  induction Hsorted as [|x l _ IH Hx]; intros i j Hi Hj Hij; [done|].
  destruct j as [|j]; [lia|]. destruct i as [|i]; simpl in *.
  - injection Hi as <-. rewrite Forall_forall in Hx.
    by eapply Hx, list_elem_of_lookup_2.
  - apply (IH i j); [done..|lia].
Qed.

Lemma sorted_respects order :
  (∀ v, ¬ path g v v) →
  StronglySorted (path g) order →
  (∀ e, e ∈ g → edge_from e ∈ order ∧ edge_to e ∈ order) →
  ∀ e, e ∈ g → precedes order (edge_from e) (edge_to e).
Proof.
  intros Hacyclic Hsorted Hin e He.
  destruct (Hin e He) as [[i Hi]%list_elem_of_lookup_1 [j Hj]%list_elem_of_lookup_1].
  assert (Hp : path g (edge_from e) (edge_to e)) by (by apply path_edge).
  exists i, j. repeat split; [done..|].
  destruct (decide (i < j)) as [|Hge]; [done|]. exfalso.
  destruct (decide (i = j)) as [->|Hne].
  - assert (edge_from e = edge_to e) as Heq by congruence.
    apply (Hacyclic (edge_to e)). by rewrite <- Heq at 1.
  - apply (Hacyclic (edge_from e)). eapply path_trans; [exact Hp|].
    apply (sorted_lookup order j i); [done..|lia].
Qed.

End LineUp.

Lemma path_from_within inp g a b : within inp g → path g a b → a ∈ names inp.
Proof. intros Hg [e He|e c He _]; by apply Hg. Qed.

(** A sort has an outcome: the cycle error when the graph has a cycle,
    and otherwise the order of the vertices along its paths. *)
Theorem Sort_total inp : distinct_names inp → ∃ r, sort_result inp r.
Proof.
  intros Hnames%distinct_names_NoDup.
  destruct (existsb (fun v => ordered (sort_graph inp) v v) (names inp)) eqn:Hc.
  - apply existsb_exists in Hc as (v & _ & Hv%ordered_path).
    exists (Thrown CyclicInteractionError). by apply (sort_throws _ v).
  - assert (Hacyclic : ∀ v, ¬ path (sort_graph inp) v v).
    { intros v Hv.
      assert (Hin : v ∈ names inp)
        by (eapply path_from_within; [apply sort_graph_within|exact Hv]).
      apply ordered_path in Hv.
      assert (existsb (fun v => ordered (sort_graph inp) v v) (names inp) = true);
        [|congruence].
      apply existsb_exists. exists v. by rewrite <- list_elem_of_In. }
    exists (Returned (line_up (sort_graph inp) (names inp))).
    apply sort_returns; [apply line_up_perm|].
    apply sorted_respects; [done| |].
    + apply line_up_sorted; [done|]. intros a b. apply sort_graph_connects.
    + intros e He. rewrite !line_up_perm. by apply sort_graph_within.
Qed.

(** A sort throws exactly when its graph has a cycle, and returns an
    order exactly when it has none. *)
Theorem Sort_throws_iff_cycle inp :
  distinct_names inp →
  (sort_result inp (Thrown CyclicInteractionError) ↔ ¬ acyclic (sort_graph inp)) ∧
  ((∃ order, sort_result inp (Returned order)) ↔ acyclic (sort_graph inp)).
Proof.
  intros Hnames.
  assert (Hreturned : ∀ order, sort_result inp (Returned order) →
                               acyclic (sort_graph inp)).
  { intros order Hr v Hv. inversion Hr as [o Hperm Hresp|]; subst.
    assert (Hnd : NoDup order)
      by (rewrite Hperm; by apply distinct_names_NoDup).
    apply (precedes_irrefl order v Hnd).
    by apply (precedes_path (sort_graph inp)). }
  assert (Hthrown : ∀ e, sort_result inp (Thrown e) →
                         e = CyclicInteractionError ∧ ¬ acyclic (sort_graph inp)).
  { intros e Hr. inversion Hr as [|v Hv]; subst. split; [done|].
    intros Hacyclic. by apply (Hacyclic v). }
  destruct (Sort_total inp Hnames) as [[order|e] Hr].
  - specialize (Hreturned order Hr). split; split; eauto.
    + intros Ht. by apply Hthrown in Ht as [_ ?].
    + done.
  - destruct (Hthrown e Hr) as [-> Hcyclic]. split; split; eauto.
    + intros [order Ho]. by apply Hreturned in Ho.
    + done.
Qed.

(** The tie-break edges of rule 6, put between the pairs that rules 1 to
    5 leave unordered, can close a cycle with the edges of those rules:
    with "A.esp" a master of "B.esp" and the priorities 10 for "B.esp" and
    5 for "C.esp", the comparison puts "B.esp" before "C.esp" and "C.esp"
    before "A.esp". *)
Example scenario_priorities_cyclic :
  sort_result scenario_priorities (Thrown CyclicInteractionError).
Proof.
  apply (sort_throws _ "A.esp").
  apply (reaches_path (length (sort_graph scenario_priorities))).
  vm_compute. reflexivity.
Qed.

(** * Further properties of the facade *)

Lemma State_eta st st' :
  masterlist_ st' = masterlist_ st → userlist_ st' = userlist_ st →
  disk st' = disk st → st' = set_gameCache (gameCache_ st') st.
Proof. destruct st, st'. simpl. by intros -> -> ->. Qed.

(** ** Known tags *)

(** X1: [GetKnownBashTags] returns the union of the known tags of the
    masterlist and of the userlist, whether the userlist has any or not,
    and changes nothing. *)
Theorem GetKnownBashTags_union st :
  GetKnownBashTags st
  = (Returned (BashTags (masterlist_ st) ∪ BashTags (userlist_ st)), st) ∧
  ∀ t tags, (GetKnownBashTags st).1 = Returned tags →
    (t ∈ tags ↔ t ∈ BashTags (masterlist_ st) ∨ t ∈ BashTags (userlist_ st)).
Proof.
  assert (Hrun : GetKnownBashTags st
            = (Returned (BashTags (masterlist_ st) ∪ BashTags (userlist_ st)), st)).
  { unfold GetKnownBashTags. run. case_bool_decide as Hu; [|done].
    by rewrite Hu, (right_id_L ∅ (∪)). }
  split; [done|]. rewrite Hrun. intros t tags [= <-]. apply elem_of_union.
Qed.

(** ** Loading *)

(** X2: a masterlist that cannot be read decides the outcome of
    [LoadLists] alone: whatever the userlist path, the error is
    [FileAccessError] for a masterlist path with nothing at it, and the
    loader's error for a masterlist that does not load; the state is left
    as it was. *)
Theorem LoadLists_masterlist_error_first masterlistPath st :
  (missing (disk st) masterlistPath →
   ∀ userlistPath,
     LoadLists masterlistPath userlistPath st = (Thrown FileAccessError, st)) ∧
  (∀ e, masterlistPath ≠ "" → exists_ (disk st) masterlistPath = true →
   Load (disk st) masterlistPath = Thrown e →
   ∀ userlistPath, LoadLists masterlistPath userlistPath st = (Thrown e, st)).
Proof.
  split.
  - intros Hmiss u. by rewrite LoadLists_run, (read_list_missing _ _ Hmiss).
  - intros e Hne Hex HL u. rewrite LoadLists_run. unfold read_list.
    by rewrite bool_decide_eq_false_2, Hex, HL.
Qed.

Lemma LoadLists_masterlist_error_first_witness :
  LoadLists "data/nothing.yaml" "data/broken.yaml" example_state
    = (Thrown FileAccessError, example_state) ∧
  LoadLists "data/broken.yaml" "data/nothing.yaml" example_state
    = (Thrown ConditionSyntaxError, example_state).
Proof.
  split.
  - apply (proj1 (LoadLists_masterlist_error_first "data/nothing.yaml"
                    example_state)).
    split; [discriminate | vm_compute; reflexivity].
  - apply (proj2 (LoadLists_masterlist_error_first "data/broken.yaml"
                    example_state)); [discriminate|vm_compute; reflexivity..].
Defined.

(** X3: [LoadLists] reads and never writes: whatever its outcome, the
    file system and the cached condition results are the ones from before
    the call (a reload does not clear the condition cache).  Its outcome
    and the lists it stores do not depend on the lists held before, so a
    call that returned, made again, leaves the very same state. *)
Theorem LoadLists_reads_only masterlistPath userlistPath st :
  let call := LoadLists masterlistPath userlistPath st in
  disk call.2 = disk st ∧
  gameCache_ call.2 = gameCache_ st ∧
  (∀ masterlist userlist,
     let other :=
       LoadLists masterlistPath userlistPath
         (set_masterlist masterlist (set_userlist userlist st)) in
     other.1 = call.1 ∧
     (call.1 = Returned tt →
      masterlist_ other.2 = masterlist_ call.2 ∧
      userlist_ other.2 = userlist_ call.2)) ∧
  (call.1 = Returned tt →
   LoadLists masterlistPath userlistPath call.2 = call).
Proof.
  simpl. split; [|split; [|split]].
  - rewrite LoadLists_run.
    by destruct (read_list (disk st) masterlistPath),
                (read_list (disk st) userlistPath).
  - rewrite LoadLists_run.
    by destruct (read_list (disk st) masterlistPath),
                (read_list (disk st) userlistPath).
  - intros masterlist userlist. rewrite !LoadLists_run. simpl.
    by destruct (read_list (disk st) masterlistPath),
                (read_list (disk st) userlistPath).
  - rewrite LoadLists_run.
    destruct (read_list (disk st) masterlistPath) as [temp|e1] eqn:Em;
      [|done].
    destruct (read_list (disk st) userlistPath) as [userTemp|e2] eqn:Eu;
      [|done].
    intros _. rewrite LoadLists_run. simpl. by rewrite Em, Eu.
Qed.

(** ** Updating and writing *)

Section WritingMore.

Variable parent_path : string -> string.
Variable on_clash : PluginMetadata -> PluginMetadata -> Outcome PluginMetadata.
Variable Update :
  string -> string -> string -> gmap string Node ->
  Outcome bool * Masterlist * gmap string Node.

(** X4: [UpdateMasterlist] asks for a parent that is a directory, where
    the writing functions ask for one that exists.  With a parent that is
    not a directory it throws [InvalidArgument] and the update is not
    attempted (nothing changes); when the parent is a regular file,
    [WriteUserMetadata] for the same path does not throw
    [InvalidArgument].  In no case does [UpdateMasterlist] touch the
    cached condition results. *)
Theorem UpdateMasterlist_parent_directory masterlistPath remoteURL remoteBranch st :
  let call :=
    UpdateMasterlist parent_path Update masterlistPath remoteURL remoteBranch st in
  gameCache_ call.2 = gameCache_ st ∧
  (is_directory (disk st) (parent_path masterlistPath) = false →
   call = (Thrown InvalidArgument, st)) ∧
  (∀ d overwrite,
     disk st !! parent_path masterlistPath = Some (RegularFile d) →
     call = (Thrown InvalidArgument, st) ∧
     (WriteUserMetadata parent_path masterlistPath overwrite st).1
       ≠ Thrown InvalidArgument).
Proof.
  simpl. unfold UpdateMasterlist, WriteUserMetadata, save, Save. run.
  split; [|split].
  - destruct (is_directory (disk st) (parent_path masterlistPath)); [|done].
    simpl. destruct (Update _ _ _ _) as [[[[|]|e] masterlist] fs']; done.
  - by intros ->.
  - intros d overwrite Hd. unfold is_directory, exists_. rewrite Hd.
    rewrite bool_decide_eq_false_2 by done.
    rewrite bool_decide_eq_true_2 by eauto. simpl. split; [done|].
    destruct (bool_decide (is_Some (disk st !! masterlistPath)) && negb overwrite);
      simpl; [done|].
    unfold writable. by destruct (_ && _).
Qed.


(** X6: [WriteMinimalList] writes from the masterlist and nothing of the
    userlist: its outcome and the files it leaves are the same whatever
    the userlist is.  Whatever its outcome, the stored lists and the
    cached condition results stay as they are, and no file but the output
    file changes. *)
Theorem WriteMinimalList_frame outputFile overwrite st :
  let call := WriteMinimalList parent_path on_clash outputFile overwrite st in
  masterlist_ call.2 = masterlist_ st ∧
  userlist_ call.2 = userlist_ st ∧
  gameCache_ call.2 = gameCache_ st ∧
  (∀ path, path ≠ outputFile → disk call.2 !! path = disk st !! path) ∧
  (∀ userlist,
     let other :=
       WriteMinimalList parent_path on_clash outputFile overwrite
         (set_userlist userlist st) in
     other.1 = call.1 ∧ disk other.2 = disk call.2).
Proof.
  simpl. unfold WriteMinimalList, save, Save. run.
  destruct (negb (exists_ (disk st) (parent_path outputFile))); simpl; [done|].
  destruct (exists_ (disk st) outputFile && negb overwrite); simpl; [done|].
  destruct (add_minimal on_clash (Plugins (masterlist_ st)) newMetadataList)
    as [minimalList|e]; simpl; [|done].
  destruct (writable parent_path (disk st) outputFile); simpl;
    repeat split; try done; intros path Hne; by rewrite lookup_insert_ne.
Qed.

End WritingMore.

Lemma UpdateMasterlist_parent_directory_witness :
  UpdateMasterlist example_parent_path example_Update
    "data/masterlist.yaml/masterlist.yaml" "https://example.invalid/repo"
    "master" example_state
  = (Thrown InvalidArgument, example_state) ∧
  (WriteUserMetadata example_parent_path "data/masterlist.yaml/masterlist.yaml"
     true example_state).1 ≠ Thrown InvalidArgument.
Proof.
  apply (proj2 (proj2 (UpdateMasterlist_parent_directory example_parent_path
           example_Update "data/masterlist.yaml/masterlist.yaml"
           "https://example.invalid/repo" "master" example_state))
           (WellFormed example_masterlist) true).
  vm_compute. reflexivity.
Defined.

(** ** General messages, continued *)

Section GeneralMessagesMore.

Variable resolve : gmap string Node -> string -> Outcome bool.

Lemma evaluate_frame condition st r st' :
  evaluate resolve condition st = (r, st') →
  disk st' = disk st ∧ masterlist_ st' = masterlist_ st ∧
  userlist_ st' = userlist_ st.
Proof.
  destruct condition as [c|]; simpl.
  - destruct (conditions_ (gameCache_ st) !! c); [by intros [= <- <-]|].
    destruct (resolve (disk st) c); by intros [= <- <-].
  - run. by intros [= <- <-].
Qed.

Lemma erase_hidden_frame msgs st r st' :
  erase_hidden resolve msgs st = (r, st') →
  disk st' = disk st ∧ masterlist_ st' = masterlist_ st ∧
  userlist_ st' = userlist_ st.
Proof.
  revert st r st'. induction msgs as [|m rest IH]; intros st r st'; simpl; run.
  - by intros [= <- <-].
  - destruct (evaluate resolve (GetCondition m) st) as [[holds|e] st1] eqn:Ee;
      apply evaluate_frame in Ee as (Hd1 & Hm1 & Hu1).
    + destruct (erase_hidden resolve rest st1) as [[rest'|e] st2] eqn:Er;
        apply IH in Er as (Hd2 & Hm2 & Hu2); intros [= <- <-];
        by rewrite Hd2, Hm2, Hu2.
    + by intros [= <- <-].
Qed.

Lemma erase_hidden_throws pre m post e st :
  cache_sound resolve st →
  (∀ x, x ∈ pre →
     ∃ b, condition_value resolve (disk st) (GetCondition x) = Returned b) →
  condition_value resolve (disk st) (GetCondition m) = Thrown e →
  (erase_hidden resolve (pre ++ m :: post) st).1 = Thrown e.
Proof.
  revert st. induction pre as [|x pre IH]; intros st Hs Hpre Hm; simpl; run.
  - destruct (evaluate resolve (GetCondition m) st) as [r st1] eqn:Ee.
    destruct (evaluate_sound _ _ _ _ _ Hs Ee) as (-> & _). by rewrite Hm.
  - destruct (evaluate resolve (GetCondition x) st) as [r st1] eqn:Ee.
    destruct (evaluate_sound _ _ _ _ _ Hs Ee) as (-> & Hs1 & Hd1 & _).
    destruct (Hpre x) as [b ->]; [by left|].
    specialize (IH st1 Hs1). rewrite Hd1 in IH.
    destruct (erase_hidden resolve (pre ++ m :: post) st1) as [r2 st2].
    simpl in IH. rewrite IH; [done| |done].
    intros y Hy. apply Hpre. by right.
Qed.

(** X7: [GetGeneralMessages] with evaluation throws the error of the
    first message, masterlist messages before userlist messages, whose
    condition fails to resolve; the messages after it play no part. *)
Theorem GetGeneralMessages_first_error pre m post e st :
  Messages (masterlist_ st) ++ Messages (userlist_ st) = pre ++ m :: post →
  (∀ x, x ∈ pre →
     ∃ b, condition_value resolve (disk st) (GetCondition x) = Returned b) →
  condition_value resolve (disk st) (GetCondition m) = Thrown e →
  (GetGeneralMessages resolve true st).1 = Thrown e.
Proof.
  intros Hall Hpre Hm. rewrite GetGeneralMessages_run, Hall.
  apply (erase_hidden_throws pre m post e
           (set_gameCache {| conditions_ := ∅ |} st));
    [apply cache_sound_cleared|done..].
Qed.

(** X8: [GetGeneralMessages] never changes the stored lists or the file
    system, whatever its outcome.  The messages it returns with
    evaluation are among those it returns without, in the same order,
    and the call made again on the state it left has the same outcome and
    leaves the same state. *)
Theorem GetGeneralMessages_frame evaluateConditions st :
  let call := GetGeneralMessages resolve evaluateConditions st in
  masterlist_ call.2 = masterlist_ st ∧
  userlist_ call.2 = userlist_ st ∧
  disk call.2 = disk st ∧
  (∀ kept, call.1 = Returned kept →
     kept `sublist_of` Messages (masterlist_ st) ++ Messages (userlist_ st)) ∧
  GetGeneralMessages resolve evaluateConditions call.2 = call.
Proof.
  simpl. rewrite GetGeneralMessages_run.
  destruct evaluateConditions.
  - destruct (erase_hidden resolve _ (set_gameCache {| conditions_ := ∅ |} st))
      as [r st'] eqn:Er. simpl.
    destruct (erase_hidden_frame _ _ _ _ Er) as (Hd & Hm & Hu). simpl in *.
    repeat split; try done.
    + intros kept ->.
      destruct (erase_hidden_returned _ _ _ _ _ (cache_sound_cleared resolve st) Er)
        as (-> & _).
      apply sublist_filter.
    + rewrite GetGeneralMessages_run, Hm, Hu.
      replace (set_gameCache {| conditions_ := ∅ |} st')
        with (set_gameCache {| conditions_ := ∅ |} st); [done|].
      rewrite (State_eta st st' Hm Hu Hd). reflexivity.
  - simpl. repeat split; try done.
    + by intros kept [= <-].
    + by rewrite GetGeneralMessages_run.
Qed.

End GeneralMessagesMore.

Lemma GetGeneralMessages_first_error_witness :
  (GetGeneralMessages example_resolve true example_unresolvable_state).1
  = Thrown ConditionSyntaxError.
Proof.
  apply (GetGeneralMessages_first_error example_resolve
           [example_message "always" None]
           (example_message "garbled" (Some "nonsense"))
           [example_message "if missing" (Some "file(Missing.esp)");
            example_message "if present" (Some "file(Blank.esm)")]).
  - vm_compute. reflexivity.
  - intros x ->%list_elem_of_singleton. by exists true.
  - vm_compute. reflexivity.
Defined.

(** ** User metadata, continued *)

Section UserMetadataMore.

Variable on_clash : PluginMetadata -> PluginMetadata -> Outcome PluginMetadata.
Variable resolve : gmap string Node -> string -> Outcome bool.
Variable evaluateAll : PluginMetadata -> M PluginMetadata.

Lemma SetPluginUserMetadata_run pluginMetadata st :
  SetPluginUserMetadata on_clash pluginMetadata st
  = (Returned tt,
     set_userlist
       (set_plugins
          (<[plugin_key pluginMetadata := pluginMetadata]>
             (plugins_ (userlist_ st)))
          (userlist_ st))
       st).
Proof.
  unfold SetPluginUserMetadata, AddPlugin, ErasePlugin. run.
  rewrite lookup_delete_eq. simpl. unfold set_userlist, set_plugins. simpl.
  by rewrite insert_delete_eq.
Qed.

(** X9: a set or a discard of user metadata wipes out an earlier set for
    the same plugin, case apart: the state is the one that the later call
    alone would have left. *)
Theorem SetPluginUserMetadata_overwritten earlier later st :
  plugin_key earlier = plugin_key later →
  SetPluginUserMetadata on_clash later
    (SetPluginUserMetadata on_clash earlier st).2
  = SetPluginUserMetadata on_clash later st ∧
  DiscardPluginUserMetadata (name later)
    (SetPluginUserMetadata on_clash earlier st).2
  = DiscardPluginUserMetadata (name later) st.
Proof.
  intros Hkey. rewrite !SetPluginUserMetadata_run.
  unfold DiscardPluginUserMetadata, ErasePlugin. run.
  unfold set_userlist, set_plugins. simpl.
  rewrite plugin_key_minimal. fold (plugin_key later). rewrite Hkey.
  by rewrite insert_insert_eq, delete_insert_eq.
Qed.

(** X10: [SetPluginUserMetadata] changes the user entry of its plugin and
    nothing else: the masterlist, the cached condition results, the file
    system, the general messages and the known tags of the userlist stay,
    and so does what [GetPluginUserMetadata] returns for every plugin of
    another name, case apart. *)
Theorem SetPluginUserMetadata_frame pluginMetadata st :
  let st' := (SetPluginUserMetadata on_clash pluginMetadata st).2 in
  masterlist_ st' = masterlist_ st ∧
  gameCache_ st' = gameCache_ st ∧
  disk st' = disk st ∧
  Messages (userlist_ st') = Messages (userlist_ st) ∧
  BashTags (userlist_ st') = BashTags (userlist_ st) ∧
  ∀ plugin, to_lower plugin ≠ plugin_key pluginMetadata →
    (GetPluginUserMetadata evaluateAll plugin false st').1
    = (GetPluginUserMetadata evaluateAll plugin false st).1.
Proof.
  simpl. rewrite SetPluginUserMetadata_run. simpl.
  repeat split; try done.
  intros plugin Hne. unfold GetPluginUserMetadata, FindPlugin. run.
  by rewrite lookup_insert_ne.
Qed.

(** X11: after [DiscardPluginUserMetadata] the user entry of the plugin,
    under any spelling of its name, is the entry with that name and
    nothing else; the entries of the other plugins and everything else
    stay; and discarding a plugin that has no user entry changes
    nothing. *)
Theorem DiscardPluginUserMetadata_erases plugin st :
  let call := DiscardPluginUserMetadata plugin st in
  call.1 = Returned tt ∧
  masterlist_ call.2 = masterlist_ st ∧
  gameCache_ call.2 = gameCache_ st ∧
  disk call.2 = disk st ∧
  Messages (userlist_ call.2) = Messages (userlist_ st) ∧
  BashTags (userlist_ call.2) = BashTags (userlist_ st) ∧
  (∀ spelling, to_lower spelling = to_lower plugin →
     GetPluginUserMetadata evaluateAll spelling false call.2
     = (Returned (newPluginMetadata spelling), call.2)) ∧
  (∀ other, to_lower other ≠ to_lower plugin →
     (GetPluginUserMetadata evaluateAll other false call.2).1
     = (GetPluginUserMetadata evaluateAll other false st).1) ∧
  (plugins_ (userlist_ st) !! to_lower plugin = None → call.2 = st).
Proof.
  simpl. unfold DiscardPluginUserMetadata, GetPluginUserMetadata, ErasePlugin,
    FindPlugin. run. rewrite plugin_key_minimal.
  repeat split; try done.
  - intros spelling ->. by rewrite lookup_delete_eq.
  - intros other Hne. by rewrite lookup_delete_ne.
  - intros Hnone. rewrite delete_id by done.
    by destruct st as [m [ps ms ts] c d].
Qed.

(** X12: after [DiscardAllUserMetadata] every query answers from the
    masterlist alone: the known tags and the general messages are the
    masterlist's, the metadata of a plugin with user metadata included is
    its masterlist entry, and its user metadata is the entry with its
    name and nothing else. *)
Theorem DiscardAllUserMetadata_masterlist_only st :
  let st' := (DiscardAllUserMetadata st).2 in
  (DiscardAllUserMetadata st).1 = Returned tt ∧
  masterlist_ st' = masterlist_ st ∧
  (GetKnownBashTags st').1 = Returned (BashTags (masterlist_ st)) ∧
  (GetGeneralMessages resolve false st').1
    = Returned (Messages (masterlist_ st)) ∧
  ∀ plugin,
    (GetPluginMetadata evaluateAll plugin true false st').1
    = Returned (FindPlugin (masterlist_ st) plugin) ∧
    (GetPluginUserMetadata evaluateAll plugin false st').1
    = Returned (newPluginMetadata plugin).
Proof.
  simpl. unfold DiscardAllUserMetadata, GetKnownBashTags, GetGeneralMessages,
    GetPluginMetadata, GetPluginUserMetadata, Clear. run.
  repeat split; try done.
  unfold FindPlugin at 2. simpl. rewrite lookup_empty. simpl.
  by rewrite MergeMetadata_empty_r.
Qed.

End UserMetadataMore.

Lemma SetPluginUserMetadata_overwritten_witness :
  (GetPluginUserMetadata (fun p => mret p) "Blank.esp" false
     (SetPluginUserMetadata example_on_clash (newPluginMetadata "BLANK.ESP")
        (SetPluginUserMetadata example_on_clash example_grouped
           example_state).2).2).1
  = Returned (newPluginMetadata "BLANK.ESP").
Proof.
  rewrite (proj1 (SetPluginUserMetadata_overwritten example_on_clash
                    example_grouped (newPluginMetadata "BLANK.ESP")
                    example_state eq_refl)).
  vm_compute. reflexivity.
Defined.

(** ** Plugin metadata *)

Section PluginMetadataMore.

Variable evaluateAll : PluginMetadata -> M PluginMetadata.

(** X13: [GetPluginMetadata] merges the userlist entry into the
    masterlist entry, so that the user's word wins: the group, the enabled
    flag and the priorities are the userlist's where it sets them and the
    masterlist's otherwise, and the messages are the masterlist's followed
    by the userlist's.  Without user metadata the userlist plays no part.
    Without evaluation the call changes nothing. *)
Theorem GetPluginMetadata_user_wins plugin st :
  let master := FindPlugin (masterlist_ st) plugin in
  let user := FindPlugin (userlist_ st) plugin in
  (∀ userlist,
     GetPluginMetadata evaluateAll plugin false false (set_userlist userlist st)
     = (Returned master, set_userlist userlist st)) ∧
  ∃ metadata,
    GetPluginMetadata evaluateAll plugin true false st = (Returned metadata, st) ∧
    name metadata = name master ∧
    group metadata = from_option Some (group master) (group user) ∧
    enabled metadata = from_option Some (enabled master) (enabled user) ∧
    priority metadata
      = (if decide (priority user = PriorityUnset) then priority master
         else priority user) ∧
    global_priority metadata
      = (if decide (global_priority user = PriorityUnset)
         then global_priority master else global_priority user) ∧
    messages metadata = messages master ++ messages user.
Proof.
  simpl. unfold GetPluginMetadata. run. split; [done|].
  eexists. split; [reflexivity|]. simpl.
  repeat split.
  - destruct (priority (FindPlugin (userlist_ st) plugin)); simpl;
      try done; by destruct (decide _).
  - destruct (global_priority (FindPlugin (userlist_ st) plugin)); simpl;
      try done; by destruct (decide _).
Qed.

End PluginMetadataMore.

(** ** Logging *)

(** X14: [mapFromSpdlog] keeps the severities apart: two severities other
    than [off] that are reported as the same level are the same severity.
    [off], which the switch does not name, is reported as [trace]. *)
Theorem mapFromSpdlog_injective :
  (∀ a b, a ≠ spdlog.off → b ≠ spdlog.off →
          mapFromSpdlog a = mapFromSpdlog b → a = b) ∧
  mapFromSpdlog spdlog.off = LogLevel.trace ∧
  (∀ s, mapFromSpdlog s = LogLevel.fatal ↔ s = spdlog.critical) ∧
  (∀ s, mapFromSpdlog s = LogLevel.error ↔ s = spdlog.err).
Proof.
  split; [|split; [done|split]].
  - intros [] [] Ha Hb; simpl; try done.
  - intros []; simpl; split; done.
  - intros []; simpl; split; done.
Qed.
